(** * Inline history completion, keyboard dispatch and API-key preview

    A shallow embedding of three pieces of the webview:
    - [useInlineHistoryCompletion.ts]: [cleanupCounts], [findBestMatch],
      [updateQuery], [clear], [applySuggestion] and the enabled-flag tracking;
    - [useKeyboardHandler.ts]: [onKeyDown];
    - the config display component: [getApiKeyPreview].

    JavaScript strings are sequences of UTF-16 code units, and [length],
    [slice], [startsWith] and [repeat] all count code units; they are
    modelled as lists of code units.  A [Record<string, number>] is a finite
    map from strings to numbers, the numbers stored being integers; it is a
    plain object, so reading a name that is not one of its keys falls
    through to [Object.prototype]. *)

From Stdlib Require Import ZArith Lia.
From Stdlib Require DecimalString DecimalZ.
From stdpp Require Import strings gmap list sorting.

Local Open Scope Z_scope.

(** * Part I: the program *)

(** ** JavaScript strings *)

Abbreviation jsstring := (list N).

Module JsString.

(** [s.startsWith(p)] *)
Fixpoint startsWith (s p : jsstring) : bool :=
  match p, s with
  | [], _ => true
  | _ :: _, [] => false
  | c :: p', d :: s' => (c =? d)%N && startsWith s' p'
  end.

(** [s.slice(start, end)]: a negative index counts from the end, both
    indices are clamped to the string, and an absent [end] is the length. *)
Definition slice (s : jsstring) (start : Z) (end_ : option Z) : jsstring :=
  let len := Z.of_nat (length s) in
  let from := if start <? 0 then Z.max (len + start) 0 else Z.min start len in
  let to :=
    match end_ with
    | None => len
    | Some e => if e <? 0 then Z.max (len + e) 0 else Z.min e len
    end in
  take (Z.to_nat (Z.max (to - from) 0)) (drop (Z.to_nat from) s).

(** [c.repeat(n)] *)
Fixpoint repeat (c : jsstring) (n : nat) : jsstring :=
  match n with
  | O => []
  | S n' => c ++ repeat c n'
  end.

(** ASCII text as code units, for writing literals. *)
Definition of_ascii (s : string) : jsstring :=
  List.map Ascii.N_of_ascii (String.list_ascii_of_string s).

(** The code units that [trim] removes (WhiteSpace and LineTerminator). *)
Definition isWhiteSpace (c : N) : bool :=
  ((9 <=? c) && (c <=? 13) || (c =? 32) || (c =? 160) || (c =? 5760)
   || (8192 <=? c) && (c <=? 8202) || (c =? 8232) || (c =? 8233)
   || (c =? 8239) || (c =? 8287) || (c =? 12288) || (c =? 65279))%N.

Fixpoint trimStart (s : jsstring) : jsstring :=
  match s with
  | [] => []
  | c :: s' => if isWhiteSpace c then trimStart s' else s
  end.

Definition trimEnd (s : jsstring) : jsstring :=
  reverse (trimStart (reverse s)).

Definition trim (s : jsstring) : jsstring := trimEnd (trimStart s).

(** A string is truthy when it is not empty. *)
Definition truthy (s : jsstring) : bool :=
  match s with [] => false | _ :: _ => true end.

(** [toLowerCase] restricted to the ASCII letters; it is only used to run
    the engine on concrete inputs, the engine itself is stated for any
    lower-casing function. *)
Definition ascii_toLowerCase (s : jsstring) : jsstring :=
  List.map (fun c => if ((65 <=? c) && (c <=? 90))%N then (c + 32)%N else c) s.

End JsString.

(** A string literal. *)
Definition js (s : string) : jsstring := JsString.of_ascii s.

(** ** [Array.prototype.sort] with a comparator

    The sort is stable, and for a consistent comparator its result is the
    sorted permutation; a stable insertion sort computes it.
    [compareFn a b] positive means that [a] goes after [b].  For a
    comparator that is not consistent the language only promises a
    rearrangement of the array, in an order left to the engine: what is
    proved of the order is proved where the comparisons made are
    consistent. *)

Fixpoint sort_insert {A : Type} (compareFn : A -> A -> Z) (x : A) (l : list A) : list A :=
  match l with
  | [] => [x]
  | y :: l' =>
      if 0 <? compareFn x y then y :: sort_insert compareFn x l' else x :: l
  end.

Definition sort {A : Type} (compareFn : A -> A -> Z) (l : list A) : list A :=
  foldr (sort_insert compareFn) [] l.

(** [a] is not after [b] *)
Definition cmp_le {A : Type} (compareFn : A -> A -> Z) (a b : A) : Prop :=
  compareFn a b <= 0.

(** ** Code that may throw *)

Inductive completion (A : Type) : Type :=
| Normal (a : A)
| Throw (e : jsstring).
Arguments Normal {A} a.
Arguments Throw {A} e.

#[export] Instance completion_ret : MRet completion := fun A a => Normal a.

#[export] Instance completion_bind : MBind completion := fun A B k c =>
  match c with
  | Normal a => k a
  | Throw e => Throw e
  end.

(** [try { c } catch { h }] *)
Definition try_catch {A : Type} (c : completion A) (h : jsstring -> completion A) : completion A :=
  match c with
  | Normal a => Normal a
  | Throw e => h e
  end.

(** ** What the hook takes from its environment

    [loadHistory], [loadCounts], [isHistoryCompletionEnabled] and
    [HISTORY_ENABLED_KEY] are imported from [useInputHistory.js];
    [toLowerCase] is [String.prototype.toLowerCase]; [setItemJSON st k v] is
    [localStorage.setItem(k, JSON.stringify(v))], which may throw (quota). *)

Class Runtime := {
  Storage : Type;
  toLowerCase : jsstring -> jsstring;
  loadHistory : Storage -> list jsstring;
  loadCounts : Storage -> gmap jsstring Z;
  isHistoryCompletionEnabled : Storage -> bool;
  HISTORY_ENABLED_KEY : jsstring;
  setItemJSON : Storage -> jsstring -> gmap jsstring Z -> completion Storage;
}.

(** ** [Record<string, number>] *)

(** The entries, each key once, in the order of the map; JavaScript's own
    order (integer-like keys first, then insertion order) only decides which
    of the entries that tie at the cut of [cleanupCounts] are kept, and
    nothing below depends on that. *)
Definition Object_entries (o : gmap jsstring Z) : list (jsstring * Z) :=
  map_to_list o.

Definition Object_keys (o : gmap jsstring Z) : list jsstring :=
  (map_to_list o).*1.

(** A later entry with the same key overwrites an earlier one. *)
Definition Object_fromEntries (l : list (jsstring * Z)) : gmap jsstring Z :=
  foldl (fun o kv => <[kv.1 := kv.2]> o) ∅ l.

(** ** [cleanupCounts] *)

Definition MAX_COUNT_RECORDS : nat := 100.

Definition compareCounts (a b : jsstring * Z) : Z := b.2 - a.2.

Definition cleanupCounts (counts : gmap jsstring Z) : gmap jsstring Z :=
  let entries := Object_entries counts in
  if (length entries <=? MAX_COUNT_RECORDS)%nat then counts
  else
    let sorted := sort compareCounts entries in
    let kept := take MAX_COUNT_RECORDS sorted in
    Object_fromEntries kept.

(** The entries kept by [cleanupCounts], when it prunes. *)
Definition keptEntries (counts : gmap jsstring Z) : list (jsstring * Z) :=
  take MAX_COUNT_RECORDS (sort compareCounts (Object_entries counts)).

(** The map of 101 entries [ [i] -> i ], for [i] from 0 to 100. *)
Definition counts101 : gmap jsstring Z :=
  list_to_map (List.map (fun i => ([N.of_nat i], Z.of_nat i)) (seq 0 101)).

(** ** [findBestMatch] *)

Definition COUNTS_KEY : jsstring := js "chat-input-history-counts".

(** The names that [Object.prototype] defines.  The count map is a plain
    object (the stored text parsed, or the result of [Object.fromEntries]
    in [cleanupCounts]), so [counts[a]] finds these members when [a] is not
    a key of the map. *)
Definition objectPrototypeMembers : list jsstring :=
  [js "constructor"; js "hasOwnProperty"; js "isPrototypeOf";
   js "propertyIsEnumerable"; js "toLocaleString"; js "toString";
   js "valueOf"; js "__proto__"; js "__defineGetter__";
   js "__defineSetter__"; js "__lookupGetter__"; js "__lookupSetter__"].

(** What reading [counts[a]] gives: the number stored under [a], the
    member inherited under that name (a function, or the prototype
    itself), or [undefined]. *)
Inductive JsValue :=
| JsNumber (n : Z)
| JsInherited (member : jsstring)
| JsUndefined.

(** [counts[a]] *)
Definition getProperty (counts : gmap jsstring Z) (a : jsstring) : JsValue :=
  match counts !! a with
  | Some c => JsNumber c
  | None =>
      if bool_decide (a ∈ objectPrototypeMembers) then JsInherited a
      else JsUndefined
  end.

(** [counts[a] || 0]: an inherited member is truthy. *)
Definition count_or_zero (counts : gmap jsstring Z) (a : jsstring) : JsValue :=
  match getProperty counts a with
  | JsNumber c => if c =? 0 then JsNumber 0 else JsNumber c
  | JsInherited member => JsInherited member
  | JsUndefined => JsNumber 0
  end.

(** [x !== y]: two inherited members are the same object when they have
    the same name. *)
Definition strictNotEqual (x y : JsValue) : bool :=
  match x, y with
  | JsNumber a, JsNumber b => negb (a =? b)
  | JsInherited f, JsInherited g => negb (bool_decide (f = g))
  | JsUndefined, JsUndefined => false
  | _, _ => true
  end.

(** [x - y], [None] being NaN: a function or an object is not a number. *)
Definition subtract (x y : JsValue) : option Z :=
  match x, y with
  | JsNumber a, JsNumber b => Some (a - b)
  | _, _ => None
  end.

(** The sort takes a comparison that is NaN as [+0]. *)
Definition sortCompare {A : Type} (compareFn : A -> A -> option Z) (a b : A) : Z :=
  default 0 (compareFn a b).

(** [counts[a]] is a number or [undefined], not an inherited member. *)
Definition readsNumber (counts : gmap jsstring Z) (a : jsstring) : bool :=
  match getProperty counts a with
  | JsInherited _ => false
  | _ => true
  end.

(** The filter of [findBestMatch]. *)
Definition is_match `{Runtime} (query item : jsstring) : bool :=
  let queryLower := toLowerCase query in
  let itemLower := toLowerCase item in
  JsString.startsWith itemLower queryLower && (length query <? length item)%nat.

(** The comparator of [findBestMatch]; [None] is NaN. *)
Definition compareMatches (cleanedCounts : gmap jsstring Z) (a b : jsstring) : option Z :=
  let countA := count_or_zero cleanedCounts a in
  let countB := count_or_zero cleanedCounts b in
  if strictNotEqual countB countA then subtract countB countA
  else Some (Z.of_nat (length a) - Z.of_nat (length b)).

(** What the comparator computes for two candidates whose counts are read
    as numbers: count descending, then length ascending. *)
Definition compareCounted (counts : gmap jsstring Z) (a b : jsstring) : Z :=
  let countA := default 0 (counts !! a) in
  let countB := default 0 (counts !! b) in
  if negb (countB =? countA) then countB - countA
  else Z.of_nat (length a) - Z.of_nat (length b).

(** The search proper: filter the history, sort the matches, take the
    first. *)
Definition bestMatch `{Runtime} (cleanedCounts : gmap jsstring Z)
    (query : jsstring) (history : list jsstring) : option jsstring :=
  let matches := List.filter (is_match query) history in
  if (length matches =? 0)%nat then None
  else head (sort (sortCompare (compareMatches cleanedCounts)) matches).

(** The opportunistic write of the pruned counts, inside [try]/[catch]. *)
Definition saveCleanedCounts `{Runtime} (counts cleanedCounts : gmap jsstring Z)
    (st : Storage) : completion Storage :=
  if negb (length (Object_keys cleanedCounts) =? length (Object_keys counts))%nat
  then try_catch (setItemJSON st COUNTS_KEY cleanedCounts) (fun _ => Normal st)
  else Normal st.

Definition findBestMatch `{Runtime} (enabled : bool) (minQueryLength : nat)
    (query : jsstring) (st : Storage) : completion (option jsstring * Storage) :=
  if negb enabled || (length query <? minQueryLength)%nat then Normal (None, st)
  else
    let history := loadHistory st in
    let counts := loadCounts st in
    let cleanedCounts := cleanupCounts counts in
    st' ← saveCleanedCounts counts cleanedCounts st;
    Normal (bestMatch cleanedCounts query history, st').

(** The same environment with another [localStorage.setItem]. *)
Definition withSetItem (R : Runtime)
    (w : @Storage R -> jsstring -> gmap jsstring Z -> completion (@Storage R)) : Runtime :=
  {| Storage := @Storage R;
     toLowerCase := @toLowerCase R;
     loadHistory := @loadHistory R;
     loadCounts := @loadCounts R;
     isHistoryCompletionEnabled := @isHistoryCompletionEnabled R;
     HISTORY_ENABLED_KEY := @HISTORY_ENABLED_KEY R;
     setItemJSON := w |}.

(** ** The hook [useInlineHistoryCompletion]

    The hook's state is what React keeps for it between calls: the two state
    cells [suffix] and [fullSuggestion], the [enabled] cell, the pending
    debounce callback and the last query.  Each operation is run on the
    committed state and returns the next one; the setters called within one
    operation are committed together.  A callback closes over the state of
    the render it belongs to: [applySuggestionOf] makes that explicit for
    [applySuggestion].  A pending callback closes over
    the cleaned text and over the [findBestMatch] of the render that
    scheduled it, hence over that render's [enabled]. *)

Record Options := {
  debounceMs : Z;
  minQueryLength : nat;
}.

Definition defaultOptions : Options :=
  {| debounceMs := 100; minQueryLength := 2 |}.

Record PendingSearch := {
  pending_cleanText : jsstring;
  pending_enabled : bool;
}.

Record HookState := {
  suffix : jsstring;
  fullSuggestion : option jsstring;
  enabled : bool;
  debounceTimer : option PendingSearch;
  lastQuery : jsstring;
}.

Definition initialState `{Runtime} (st : Storage) : HookState :=
  {| suffix := [];
     fullSuggestion := None;
     enabled := isHistoryCompletionEnabled st;
     debounceTimer := None;
     lastQuery := [] |}.

(** [!!suffix && !!fullSuggestion] *)
Definition hasSuggestion (h : HookState) : bool :=
  JsString.truthy (suffix h) &&
  match fullSuggestion h with
  | Some s => JsString.truthy s
  | None => false
  end.

(** [text.replace(/[\u200B-\u200D\uFEFF]/g, '')]: the zero-width code units
    U+200B to U+200D and U+FEFF are removed. *)
Definition stripZeroWidth (text : jsstring) : jsstring :=
  List.filter (fun c => negb ((8203 <=? c) && (c <=? 8205) || (c =? 65279))%N) text.

Definition cleanText (text : jsstring) : jsstring :=
  JsString.trim (stripZeroWidth text).

Definition updateQuery (o : Options) (text : jsstring) (h : HookState) : HookState :=
  let clean := cleanText text in
  if negb (JsString.truthy clean) || (length clean <? minQueryLength o)%nat then
    {| suffix := [];
       fullSuggestion := None;
       enabled := enabled h;
       debounceTimer := None;
       lastQuery := [] |}
  else
    {| suffix := suffix h;
       fullSuggestion := fullSuggestion h;
       enabled := enabled h;
       debounceTimer :=
         Some {| pending_cleanText := clean; pending_enabled := enabled h |};
       lastQuery := lastQuery h |}.

(** The debounce callback scheduled by [updateQuery]. *)
Definition searchCallback `{Runtime} (o : Options) (p : PendingSearch)
    (h : HookState) (st : Storage) : completion (HookState * Storage) :=
  r ← findBestMatch (pending_enabled p) (minQueryLength o) (pending_cleanText p) st;
  let '(found, st') := r in
  match found with
  | Some (c :: m') =>
      let match_ := c :: m' in
      let matchSuffix :=
        JsString.slice match_ (Z.of_nat (length (pending_cleanText p))) None in
      Normal ({| suffix := matchSuffix;
                 fullSuggestion := Some match_;
                 enabled := enabled h;
                 debounceTimer := None;
                 lastQuery := pending_cleanText p |}, st')
  | _ =>
      Normal ({| suffix := [];
                 fullSuggestion := None;
                 enabled := enabled h;
                 debounceTimer := None;
                 lastQuery := pending_cleanText p |}, st')
  end.

(** The timer elapses: the pending callback, if any, runs. *)
Definition timerFires `{Runtime} (o : Options) (h : HookState) (st : Storage) :
    completion (HookState * Storage) :=
  match debounceTimer h with
  | Some p => searchCallback o p h st
  | None => Normal (h, st)
  end.

Definition clear (h : HookState) : HookState :=
  {| suffix := [];
     fullSuggestion := None;
     enabled := enabled h;
     debounceTimer := None;
     lastQuery := [] |}.

(** [applySuggestion] as the callback of one render: it closes over that
    render's [fullSuggestion], here [captured], while the setters act on the
    state React holds, here [h].  It leaves a pending debounce callback in
    place. *)
Definition applySuggestionOf (captured : option jsstring) (h : HookState) :
    option jsstring * HookState :=
  match captured with
  | Some (c :: s') =>
      (Some (c :: s'),
       {| suffix := [];
          fullSuggestion := None;
          enabled := enabled h;
          debounceTimer := debounceTimer h;
          lastQuery := [] |})
  | _ => (None, h)
  end.

(** [applySuggestion] called through the callback of the render that shows
    [h]: what it closes over is the [fullSuggestion] of [h]. *)
Definition applySuggestion (h : HookState) : option jsstring * HookState :=
  applySuggestionOf (fullSuggestion h) h.

Definition setEnabled (b : bool) (h : HookState) : HookState :=
  {| suffix := suffix h;
     fullSuggestion := fullSuggestion h;
     enabled := b;
     debounceTimer := debounceTimer h;
     lastQuery := lastQuery h |}.

(** The [storage] event listener; [key] and [newValue] may be [null]. *)
Definition handleStorageChange `{Runtime} (key newValue : option jsstring)
    (h : HookState) : HookState :=
  if bool_decide (key = Some HISTORY_ENABLED_KEY) then
    setEnabled (negb (bool_decide (newValue = Some (js "false")))) h
  else h.

(** The one-second poll. *)
Definition checkEnabled `{Runtime} (st : Storage) (h : HookState) : HookState :=
  setEnabled (isHistoryCompletionEnabled st) h.

(** What can happen to a mounted hook.  [StoreChanged] is any other code
    writing the store between two events. *)
Inductive HookEvent `{Runtime} : Type :=
| UpdateQuery (text : jsstring)
| TimerFires
| Clear
| ApplySuggestion
| StorageEvent (key newValue : option jsstring)
| PollTick
| StoreChanged (st : Storage).

Definition hookStep `{Runtime} (o : Options) (ev : HookEvent)
    (s : HookState * Storage) : completion (HookState * Storage) :=
  let '(h, st) := s in
  match ev with
  | UpdateQuery text => Normal (updateQuery o text h, st)
  | TimerFires => timerFires o h st
  | Clear => Normal (clear h, st)
  | ApplySuggestion => Normal ((applySuggestion h).2, st)
  | StorageEvent key newValue => Normal (handleStorageChange key newValue h, st)
  | PollTick => Normal (checkEnabled st h, st)
  | StoreChanged st' => Normal (h, st')
  end.

Fixpoint hookRun `{Runtime} (o : Options) (evs : list HookEvent)
    (s : HookState * Storage) : completion (HookState * Storage) :=
  match evs with
  | [] => Normal s
  | ev :: evs' => s' ← hookStep o ev s; hookRun o evs' s'
  end.

(** The suggestion state is never partial. *)
Definition suggestionConsistent (h : HookState) : Prop :=
  (suffix h <> [] /\ fullSuggestion h <> None) \/
  (suffix h = [] /\ fullSuggestion h = None).

(** A stronger form of the invariant: a stored suggestion is never the
    empty string. *)
Definition suggestionWellFormed (h : HookState) : Prop :=
  (suffix h <> [] /\ exists s, fullSuggestion h = Some s /\ s <> []) \/
  (suffix h = [] /\ fullSuggestion h = None).

(** A store for running the hook on concrete inputs: the stored history,
    counts and flag, and whether a write exceeds the quota. *)
Record DemoStore := {
  demo_history : list jsstring;
  demo_counts : gmap jsstring Z;
  demo_flag : option jsstring;
  demo_quotaExceeded : bool;
}.

Definition demoRuntime : Runtime :=
  {| Storage := DemoStore;
     toLowerCase := JsString.ascii_toLowerCase;
     loadHistory := demo_history;
     loadCounts := demo_counts;
     isHistoryCompletionEnabled st :=
       negb (bool_decide (demo_flag st = Some (js "false")));
     HISTORY_ENABLED_KEY := js "historyCompletionEnabled";
     setItemJSON st k v :=
       if demo_quotaExceeded st then Throw (js "QuotaExceededError")
       else if bool_decide (k = COUNTS_KEY) then
         Normal {| demo_history := demo_history st;
                   demo_counts := v;
                   demo_flag := demo_flag st;
                   demo_quotaExceeded := demo_quotaExceeded st |}
       else Normal st |}.

(** Stores to run the hook on: a history with usage counts, a history
    without counts, and a store whose count map has 101 entries. *)
Definition storeHello : DemoStore :=
  {| demo_history := [js "hello world"; js "help me please"];
     demo_counts := {[ js "hello world" := 5; js "help me please" := 2 ]};
     demo_flag := None;
     demo_quotaExceeded := false |}.

Definition storeAbc : DemoStore :=
  {| demo_history := [js "abc"; js "abcd"; js "abcde"];
     demo_counts := ∅;
     demo_flag := None;
     demo_quotaExceeded := false |}.

Definition storeCrowded : DemoStore :=
  {| demo_history := [js "hello world"];
     demo_counts := counts101;
     demo_flag := None;
     demo_quotaExceeded := false |}.

(** A hook showing the suggestion "hello world" for "hel", and a disabled
    hook. *)
Definition suggestingHello : HookState :=
  {| suffix := js "lo world";
     fullSuggestion := Some (js "hello world");
     enabled := true;
     debounceTimer := None;
     lastQuery := js "hel" |}.

Definition disabledHook : HookState :=
  {| suffix := [];
     fullSuggestion := None;
     enabled := false;
     debounceTimer := None;
     lastQuery := [] |}.

(** A history whose candidates for "ab" tie on count and on length. *)
Definition storeTies : DemoStore :=
  {| demo_history := [js "abX"; js "xyz"; js "abY"; js "abZ"];
     demo_counts := {[ js "abY" := 0 ]};
     demo_flag := None;
     demo_quotaExceeded := false |}.



(** A history with a candidate named like a member of [Object.prototype]. *)
Definition storeToString : DemoStore :=
  {| demo_history := [js "toString"; js "total"];
     demo_counts := {[ js "total" := 3 ]};
     demo_flag := None;
     demo_quotaExceeded := false |}.

(** A write that always exceeds the quota. *)
Definition quotaExceeded (st : DemoStore) (k : jsstring) (v : gmap jsstring Z) :
    completion DemoStore :=
  Throw (js "QuotaExceededError").

(** Events other than a call of [updateQuery]. *)
Definition isUpdateQuery `{Runtime} (ev : HookEvent) : bool :=
  match ev with
  | UpdateQuery _ => true
  | _ => false
  end.

(** The stored suggestion, when there is one, extends the last searched
    query, and the suffix is what it adds to it. *)
Definition suggestionExtendsLastQuery `{Runtime} (o : Options) (h : HookState) : Prop :=
  forall m, fullSuggestion h = Some m ->
    hasSuggestion h = true /\
    suffix h = drop (length (lastQuery h)) m /\
    JsString.startsWith (toLowerCase m) (toLowerCase (lastQuery h)) = true /\
    (length (lastQuery h) < length m)%nat /\
    (minQueryLength o <= length (lastQuery h))%nat.

(** ** [useKeyboardHandler]: [onKeyDown] *)

Module Keyboard.

(** The fields of the React keyboard event that [onKeyDown] reads;
    [nativeIsComposing] and [keyCode] are those of [e.nativeEvent]. *)
Record KeyEvent := {
  key : jsstring;
  keyCode : Z;
  shiftKey : bool;
  metaKey : bool;
  ctrlKey : bool;
  nativeIsComposing : bool;
}.

Inductive SendShortcut := enter | cmdEnter.

Record CompletionWithKeyDown := {
  isOpen : bool;
  handleKeyDown : KeyEvent -> bool;
}.

(** The options of the hook.  [PermissionMode] is declared in [../types];
    a mode is kept as the string it is at run time.  [onModeSelect] is
    whether the callback was passed, and [inlineCompletion], when passed, is
    what its [applySuggestion] answers. *)
Record Options := {
  isComposing : bool;
  lastCompositionEndTime : Z;
  sendShortcut : SendShortcut;
  sdkStatusLoading : bool;
  sdkInstalled : bool;
  fileCompletion : CompletionWithKeyDown;
  commandCompletion : CompletionWithKeyDown;
  agentCompletion : CompletionWithKeyDown;
  handleMacCursorMovement : KeyEvent -> bool;
  handleHistoryKeyDown : KeyEvent -> bool;
  inlineCompletion : option bool;
  permissionMode : option jsstring;
  currentProvider : option jsstring;
  onModeSelect : bool;
}.

(** What [onKeyDown] does to the event, the refs and its callbacks, in
    order.  [ModeSelect None] would be a call with [undefined]. *)
Inductive Effect :=
| PreventDefault
| StopPropagation
| SetCompletionSelected
| ModeSelect (mode : option jsstring)
| SetSubmittedOnEnter
| HandleSubmit.

Definition key_is (e : KeyEvent) (k : string) : bool :=
  bool_decide (key e = js k).

Definition modeOrder : list jsstring :=
  [js "default"; js "plan"; js "acceptEdits"; js "bypassPermissions"].

(** [arr.indexOf(x)], [-1] when [x] is not in [arr] *)
Fixpoint indexOf (arr : list jsstring) (x : jsstring) : Z :=
  match arr with
  | [] => -1
  | y :: arr' =>
      if bool_decide (y = x) then 0
      else let i := indexOf arr' x in if i <? 0 then -1 else i + 1
  end.

(** [arr[i]] for an integer [i], [None] being [undefined] *)
Definition at_index (arr : list jsstring) (i : Z) : option jsstring :=
  if i <? 0 then None else arr !! Z.to_nat i.

(** [a % b] of JavaScript: the result has the sign of [a]. *)
Definition js_rem (a b : Z) : Z := Z.rem a b.

Definition nextMode (mode : jsstring) : option jsstring :=
  let currentIndex := indexOf modeOrder mode in
  at_index modeOrder (js_rem (currentIndex + 1) (Z.of_nat (length modeOrder))).

(** One completion popup's stage: [Some] effects when it consumed the event. *)
Definition completionStage (c : CompletionWithKeyDown) (e : KeyEvent) : option (list Effect) :=
  if isOpen c && handleKeyDown c e then
    Some ([PreventDefault; StopPropagation] ++
          (if key_is e "Enter" then [SetCompletionSelected] else []))
  else None.

Definition isIMEComposing (o : Options) (e : KeyEvent) : bool :=
  isComposing o || nativeIsComposing e.

Definition isEnterKey (e : KeyEvent) : bool :=
  key_is e "Enter" || (keyCode e =? 13).

Definition isCursorMovementKey (e : KeyEvent) : bool :=
  key_is e "Home" || key_is e "End" ||
  ((key_is e "a" || key_is e "A") && ctrlKey e && negb (metaKey e)) ||
  ((key_is e "e" || key_is e "E") && ctrlKey e && negb (metaKey e)).

Definition isRecentlyComposing (o : Options) (now : Z) : bool :=
  now - lastCompositionEndTime o <? 100.

Definition isSendKey (o : Options) (now : Z) (e : KeyEvent) : bool :=
  match sendShortcut o with
  | cmdEnter => isEnterKey e && (metaKey e || ctrlKey e) && negb (isIMEComposing o e)
  | enter =>
      isEnterKey e && negb (shiftKey e) && negb (isIMEComposing o e)
      && negb (isRecentlyComposing o now)
  end.

(** The last stage of [onKeyDown]: the send decision. *)
Definition sendStage (o : Options) (now : Z) (e : KeyEvent) : list Effect :=
  if negb (isSendKey o now e) then []
  else if sdkStatusLoading o || negb (sdkInstalled o) then [PreventDefault]
  else [PreventDefault; SetSubmittedOnEnter; HandleSubmit].

(** The Shift+Tab stage: [Some] effects when it consumed the event. *)
Definition modeSwitchStage (o : Options) (e : KeyEvent) : option (list Effect) :=
  if key_is e "Tab" && shiftKey e && negb (isIMEComposing o e) then
    match permissionMode o with
    | Some (c :: m') =>
        if bool_decide (currentProvider o = Some (js "claude")) && onModeSelect o then
          Some [PreventDefault; StopPropagation; ModeSelect (nextMode (c :: m'))]
        else None
    | _ => None
    end
  else None.

(** The Tab stage of the inline history completion. *)
Definition inlineStage (o : Options) (e : KeyEvent) : option (list Effect) :=
  if key_is e "Tab" then
    match inlineCompletion o with
    | Some true => Some [PreventDefault; StopPropagation]
    | _ => None
    end
  else None.

(** Whether the stages before the Shift+Tab stage consume the event. *)
Definition consumedBeforeModeSwitch (o : Options) (e : KeyEvent) : bool :=
  handleMacCursorMovement o e || isCursorMovementKey e ||
  (isOpen (fileCompletion o) && handleKeyDown (fileCompletion o) e) ||
  (isOpen (commandCompletion o) && handleKeyDown (commandCompletion o) e) ||
  (isOpen (agentCompletion o) && handleKeyDown (agentCompletion o) e).

(** Whether the event gets as far as the send decision. *)
Definition reachesSendStage (o : Options) (e : KeyEvent) : bool :=
  negb (consumedBeforeModeSwitch o e) &&
  negb (bool_decide (is_Some (modeSwitchStage o e))) &&
  negb (bool_decide (is_Some (inlineStage o e))) &&
  negb (handleHistoryKeyDown o e).

(** [onKeyDown], with [now] the value of [Date.now()]. *)
Definition onKeyDown (o : Options) (now : Z) (e : KeyEvent) : list Effect :=
  if handleMacCursorMovement o e then []
  else if isCursorMovementKey e then []
  else
    match completionStage (fileCompletion o) e with
    | Some effs => effs
    | None =>
    match completionStage (commandCompletion o) e with
    | Some effs => effs
    | None =>
    match completionStage (agentCompletion o) e with
    | Some effs => effs
    | None =>
    match modeSwitchStage o e with
    | Some effs => effs
    | None =>
    match inlineStage o e with
    | Some effs => effs
    | None =>
        if handleHistoryKeyDown o e then []
        else sendStage o now e
    end end end end end.

(** *** [onKeyUp] and the two refs *)

(** [completionSelectedRef.current] and [submittedOnEnterRef.current]. *)
Record Refs := {
  completionSelected : bool;
  submittedOnEnter : bool;
}.

(** What a trace of [onKeyDown] leaves in the refs. *)
Definition applyEffect (r : Refs) (eff : Effect) : Refs :=
  match eff with
  | SetCompletionSelected =>
      {| completionSelected := true; submittedOnEnter := submittedOnEnter r |}
  | SetSubmittedOnEnter =>
      {| completionSelected := completionSelected r; submittedOnEnter := true |}
  | _ => r
  end.

Definition refsAfter (effs : list Effect) (r : Refs) : Refs :=
  foldl applyEffect r effs.

(** The send test of [onKeyUp]: it does not look at the composition. *)
Definition isSendKeyUp (o : Options) (e : KeyEvent) : bool :=
  match sendShortcut o with
  | cmdEnter => isEnterKey e && (metaKey e || ctrlKey e)
  | enter => isEnterKey e && negb (shiftKey e)
  end.

Definition onKeyUp (o : Options) (e : KeyEvent) (r : Refs) : list Effect * Refs :=
  if negb (isSendKeyUp o e) then ([], r)
  else if completionSelected r then
    ([PreventDefault],
     {| completionSelected := false; submittedOnEnter := submittedOnEnter r |})
  else if submittedOnEnter r then
    ([PreventDefault],
     {| completionSelected := completionSelected r; submittedOnEnter := false |})
  else ([PreventDefault], r).

(** Shift+Tab pressed [n] times, each press handing the callback's mode
    back as the current one. *)
Fixpoint pressShiftTab (n : nat) (mode : jsstring) : option jsstring :=
  match n with
  | O => Some mode
  | S n' => mode' ← nextMode mode; pressShiftTab n' mode'
  end.

(** Events and options to run [onKeyDown] on: nothing is composing, no
    popup is open, no other handler takes the event, the SDK is ready. *)
Definition closedPopup : CompletionWithKeyDown :=
  {| isOpen := false; handleKeyDown := fun _ => false |}.

(** An open popup that takes every key. *)
Definition greedyPopup : CompletionWithKeyDown :=
  {| isOpen := true; handleKeyDown := fun _ => true |}.

Definition idleOptions (shortcut : SendShortcut) (lastCompositionEnd : Z)
    (file : CompletionWithKeyDown) (mode : jsstring) : Options :=
  {| isComposing := false;
     lastCompositionEndTime := lastCompositionEnd;
     sendShortcut := shortcut;
     sdkStatusLoading := false;
     sdkInstalled := true;
     fileCompletion := file;
     commandCompletion := closedPopup;
     agentCompletion := closedPopup;
     handleMacCursorMovement := fun _ => false;
     handleHistoryKeyDown := fun _ => false;
     inlineCompletion := None;
     permissionMode := Some mode;
     currentProvider := Some (js "claude");
     onModeSelect := true |}.

(** Cmd+Enter *)
Definition cmdEnterKey : KeyEvent :=
  {| key := js "Enter"; keyCode := 13; shiftKey := false; metaKey := true;
     ctrlKey := false; nativeIsComposing := false |}.

(** Enter *)
Definition enterKey : KeyEvent :=
  {| key := js "Enter"; keyCode := 13; shiftKey := false; metaKey := false;
     ctrlKey := false; nativeIsComposing := false |}.

(** Shift+Tab *)
Definition shiftTabKey : KeyEvent :=
  {| key := js "Tab"; keyCode := 9; shiftKey := true; metaKey := false;
     ctrlKey := false; nativeIsComposing := false |}.

(** Tab *)
Definition tabKey : KeyEvent :=
  {| key := js "Tab"; keyCode := 9; shiftKey := false; metaKey := false;
     ctrlKey := false; nativeIsComposing := false |}.

(** The idle options with an inline suggestion ready to be applied. *)
Definition suggestingOptions : Options :=
  {| isComposing := false;
     lastCompositionEndTime := 0;
     sendShortcut := enter;
     sdkStatusLoading := false;
     sdkInstalled := true;
     fileCompletion := closedPopup;
     commandCompletion := closedPopup;
     agentCompletion := closedPopup;
     handleMacCursorMovement := fun _ => false;
     handleHistoryKeyDown := fun _ => false;
     inlineCompletion := Some true;
     permissionMode := Some (js "default");
     currentProvider := Some (js "codex");
     onModeSelect := true |}.

End Keyboard.

(** ** The config display: [getApiKeyPreview] *)

Module ConfigInfoDisplay.

(** The bullet U+2022. *)
Definition bullet : jsstring := [8226%N].

(** The text shown when no key is configured (U+672A U+914D U+7F6E). *)
Definition notConfigured : jsstring := [26410%N; 37197%N; 32622%N].

(** [apiKey] is [config.apiKey || ''], [showApiKey] the toggle's state. *)
Definition getApiKeyPreview (apiKey : jsstring) (showApiKey : bool) : jsstring :=
  if negb (JsString.truthy apiKey) then notConfigured
  else if showApiKey then apiKey
  else if (length apiKey <=? 10)%nat then JsString.repeat bullet (length apiKey)
  else JsString.slice apiKey 0 (Some 8) ++ JsString.repeat bullet 8
       ++ JsString.slice apiKey (-4) None.

(** *** The providers of the switch menu *)

Record ProviderOption := {
  id : jsstring;
  name : jsstring;
  isActive : option bool;
}.

(** [p.isActive] as a condition: an absent flag is falsy. *)
Definition active (p : ProviderOption) : bool :=
  match isActive p with
  | Some b => b
  | None => false
  end.

(** [providers.find(p => p.isActive)] *)
Definition activeProvider (providers : list ProviderOption) : option ProviderOption :=
  List.find active providers.

(** [providers.filter(p => !p.isActive)] *)
Definition switchableProviders (providers : list ProviderOption) : list ProviderOption :=
  List.filter (fun p => negb (active p)) providers.

Definition hasSwitchableProviders (providers : list ProviderOption) : bool :=
  (0 <? length (switchableProviders providers))%nat.

End ConfigInfoDisplay.

(** ** [WaitingIndicator] *)

Module WaitingIndicator.

(** [`${n}`] for an integer [n]: its decimal digits, after a minus sign
    when it is negative.  This is what JavaScript prints for the integers
    it holds exactly and prints in full, all those below 2^31 in absolute
    value among them; the properties of [formatTimeShort] are stated for
    that range, in which [seconds / 60] and [seconds % 60] are exact too. *)
Definition numberToString (n : Z) : jsstring :=
  js (DecimalString.NilEmpty.string_of_int (Z.to_int n)).

(** [formatTimeShort]; [Math.floor(seconds / 60)] is the floored quotient
    and [%] the remainder with the sign of [seconds]. *)
Definition formatTimeShort (seconds : Z) : jsstring :=
  if seconds <? 60 then numberToString seconds ++ js "s"
  else
    let minutes := seconds / 60 in
    let remainingSeconds := Z.rem seconds 60 in
    numberToString minutes ++ js "m " ++ numberToString remainingSeconds ++ js "s".

(** *** The elapsed seconds

    [startTime] is optional, and 0 is as good as absent. *)
Definition hasStartTime (startTime : option Z) : bool :=
  match startTime with
  | Some t => negb (t =? 0)
  | None => false
  end.

(** The initial value of [elapsedSeconds], [now] being [Date.now()]. *)
Definition initialElapsed (startTime : option Z) (now : Z) : Z :=
  match startTime with
  | Some t => if negb (t =? 0) then (now - t) / 1000 else 0
  | None => 0
  end.

(** One tick of the one-second interval. *)
Definition tickElapsed (startTime : option Z) (now : Z) (prev : Z) : Z :=
  match startTime with
  | Some t => if negb (t =? 0) then (now - t) / 1000 else prev + 1
  | None => prev + 1
  end.

(** The ticks at the clock readings [nows], in order. *)
Definition ticksElapsed (startTime : option Z) (nows : list Z) (prev : Z) : Z :=
  foldl (fun elapsed now => tickElapsed startTime now elapsed) prev nows.

(** *** [getRandomMessage]

    [messagesRef] and [lastIndexRef].  A draw is a value of
    [Math.floor(Math.random() * messages.length)]; the [do]/[while] loop
    consumes draws until one is accepted, and [None] means that the draws
    given ran out with the loop still going. *)
Record Picker := {
  messages : list jsstring;
  lastIndex : Z;
}.

Fixpoint pickIndex (draws : list nat) (last : Z) (len : nat) : option (nat * list nat) :=
  match draws with
  | [] => None
  | newIndex :: draws' =>
      if (Z.of_nat newIndex =? last) && (1 <? len)%nat
      then pickIndex draws' last len
      else Some (newIndex, draws')
  end.

(** [translated] is what [t('chat.generatingMessages', ...)] returns; the
    message returned is [None] when [messages[newIndex]] is [undefined]. *)
Definition getRandomMessage (translated : list jsstring) (draws : list nat)
    (pk : Picker) : option (option jsstring * Picker * list nat) :=
  let msgs := if (length (messages pk) =? 0)%nat then translated else messages pk in
  match pickIndex draws (lastIndex pk) (length msgs) with
  | Some (newIndex, draws') =>
      Some (msgs !! newIndex,
            {| messages := msgs; lastIndex := Z.of_nat newIndex |},
            draws')
  | None => None
  end.

(** *** The typewriter *)

Inductive Phase := typing | waiting | switching.

Record Typewriter := {
  currentMessage : jsstring;
  displayText : jsstring;
  charIndex : nat;
  showCursor : bool;
  phase : Phase;
}.

(** The state the component is mounted with, and starts a message with. *)
Definition startTyping (message : jsstring) : Typewriter :=
  {| currentMessage := message;
     displayText := [];
     charIndex := 0;
     showCursor := true;
     phase := typing |}.

(** What the timers set by the effect do when they fire. *)
Inductive TimerAction := TypeNextChar | EnterWaiting | EnterSwitching.

(** The effect, run after a render whose [charIndex], [currentMessage] or
    [phase] changed: the state after its synchronous updates, and the timer
    it sets (delay in ms).  [next] is what [getRandomMessage()] returns. *)
Definition typewriterEffect (next : jsstring) (tw : Typewriter) :
    Typewriter * option (Z * TimerAction) :=
  match phase tw with
  | typing =>
      if (charIndex tw <? length (currentMessage tw))%nat then
        (tw, Some (50, TypeNextChar))
      else
        ({| currentMessage := currentMessage tw;
            displayText := displayText tw;
            charIndex := charIndex tw;
            showCursor := false;
            phase := typing |},
         Some (200, EnterWaiting))
  | waiting => (tw, Some (2500, EnterSwitching))
  | switching =>
      ({| currentMessage := next;
          displayText := [];
          charIndex := 0;
          showCursor := true;
          phase := typing |},
       None)
  end.

Definition typewriterFire (a : TimerAction) (tw : Typewriter) : Typewriter :=
  match a with
  | TypeNextChar =>
      {| currentMessage := currentMessage tw;
         displayText :=
           JsString.slice (currentMessage tw) 0 (Some (Z.of_nat (charIndex tw) + 1));
         charIndex := charIndex tw + 1;
         showCursor := showCursor tw;
         phase := phase tw |}
  | EnterWaiting =>
      {| currentMessage := currentMessage tw;
         displayText := displayText tw;
         charIndex := charIndex tw;
         showCursor := showCursor tw;
         phase := waiting |}
  | EnterSwitching =>
      {| currentMessage := currentMessage tw;
         displayText := displayText tw;
         charIndex := charIndex tw;
         showCursor := showCursor tw;
         phase := switching |}
  end.

(** One round of the effect: its synchronous updates, then its timer. The
    result is the time waited and the state at the next run of the
    effect. *)
Definition typewriterStep (next : jsstring) (tw : Typewriter) : Z * Typewriter :=
  match typewriterEffect next tw with
  | (tw', Some (delay, a)) => (delay, typewriterFire a tw')
  | (tw', None) => (0, tw')
  end.

(** One round for each element of [nexts], the message [getRandomMessage]
    would return in that round; the result is the time the rounds take in
    all and the state they end in. *)
Fixpoint typewriterRun (nexts : list jsstring) (tw : Typewriter) : Z * Typewriter :=
  match nexts with
  | [] => (0, tw)
  | next :: nexts' =>
      let '(d, tw') := typewriterStep next tw in
      let '(d', tw'') := typewriterRun nexts' tw' in
      (d + d', tw'')
  end.

(** The text shown is the part of the message typed so far, and the cursor
    is shown while typing and hidden once the message is complete. *)
Definition typewriterConsistent (tw : Typewriter) : Prop :=
  displayText tw = take (charIndex tw) (currentMessage tw) /\
  (charIndex tw <= length (currentMessage tw))%nat /\
  match phase tw with
  | typing => showCursor tw = true
  | _ => showCursor tw = false /\ displayText tw = currentMessage tw
  end.

End WaitingIndicator.

(** * Part II: properties *)

(** ** Sorting *)

Section ArraySort.
Context {A : Type} (compareFn : A -> A -> Z).

Lemma sort_insert_Permutation x l : sort_insert compareFn x l ≡ₚ x :: l.
Proof.
  induction l as [|y l IH]; simpl; [done|].
  destruct (0 <? compareFn x y); [|done].
  rewrite IH. apply Permutation_swap.
Qed.

Lemma sort_Permutation l : sort compareFn l ≡ₚ l.
Proof.
  induction l as [|x l IH]; simpl; [done|].
  rewrite sort_insert_Permutation. by rewrite IH.
Qed.

Lemma sort_length l : length (sort compareFn l) = length l.
Proof. by rewrite sort_Permutation. Qed.

Lemma sort_elem_of x l : x ∈ sort compareFn l <-> x ∈ l.
Proof. by rewrite sort_Permutation. Qed.

(** A consistent comparator: when [a] goes after [b], [b] does not go
    after [a]; and "not after" is transitive. *)
Hypothesis compareFn_flip :
  forall a b, 0 < compareFn a b -> compareFn b a <= 0.
Hypothesis compareFn_trans :
  forall a b c, compareFn a b <= 0 -> compareFn b c <= 0 -> compareFn a c <= 0.

Lemma sort_insert_sorted x l :
  StronglySorted (cmp_le compareFn) l ->
  StronglySorted (cmp_le compareFn) (sort_insert compareFn x l).
Proof.
  induction 1 as [|y l Hl IH Hy]; simpl.
  - repeat constructor.
  - destruct (Z.ltb_spec 0 (compareFn x y)) as [Hlt|Hge].
    + constructor; [done|].
      rewrite sort_insert_Permutation. constructor; [|done].
      by apply compareFn_flip.
    + constructor; [by constructor|].
      constructor; [done|].
      eapply Forall_impl; [exact Hy|].
      intros z Hz. by eapply compareFn_trans.
Qed.

Lemma sort_sorted l : StronglySorted (cmp_le compareFn) (sort compareFn l).
Proof.
  induction l as [|x l IH]; simpl; [constructor|].
  by apply sort_insert_sorted.
Qed.


(** An element of a prefix of the sorted array is not after any element of
    the rest. *)
Lemma sort_take_drop n l x y :
  x ∈ take n (sort compareFn l) -> y ∈ drop n (sort compareFn l) ->
  cmp_le compareFn x y.
Proof.
  intros Hx Hy.
  pose proof (sort_sorted l) as Hsorted.
  rewrite <- (take_drop n (sort compareFn l)) in Hsorted.
  by eapply StronglySorted_app_1_elem_of.
Qed.

End ArraySort.


(** ** [cleanupCounts] *)

Lemma compareCounts_flip a b : 0 < compareCounts a b -> compareCounts b a <= 0.
Proof. unfold compareCounts. lia. Qed.

Lemma compareCounts_trans a b c :
  compareCounts a b <= 0 -> compareCounts b c <= 0 -> compareCounts a c <= 0.
Proof. unfold compareCounts. lia. Qed.

Lemma Object_fromEntries_list_to_map (l : list (jsstring * Z)) :
  NoDup (l.*1) -> Object_fromEntries l = list_to_map l.
Proof.
  unfold Object_fromEntries.
  induction l as [|[k v] l IH] using rev_ind; [done|].
  rewrite fmap_app, NoDup_app. intros (Hl & Hk & _).
  rewrite foldl_snoc, IH by done. simpl.
  rewrite list_to_map_snoc; [done|].
  intros Hin. apply (Hk k Hin). simpl. left.
Qed.

Lemma keptEntries_NoDup counts : NoDup ((keptEntries counts).*1).
Proof.
  unfold keptEntries. rewrite fmap_take.
  eapply sublist_NoDup; [|apply sublist_take].
  rewrite sort_Permutation. apply NoDup_fst_map_to_list.
Qed.

Lemma cleanupCounts_small counts :
  (size counts <= MAX_COUNT_RECORDS)%nat -> cleanupCounts counts = counts.
Proof.
  intros Hsz. unfold cleanupCounts, Object_entries.
  rewrite length_map_to_list.
  by destruct (Nat.leb_spec (size counts) MAX_COUNT_RECORDS); [|lia].
Qed.

Lemma cleanupCounts_large counts :
  (MAX_COUNT_RECORDS < size counts)%nat ->
  cleanupCounts counts = list_to_map (keptEntries counts).
Proof.
  intros Hsz. unfold cleanupCounts, Object_entries.
  rewrite length_map_to_list.
  destruct (Nat.leb_spec (size counts) MAX_COUNT_RECORDS); [lia|].
  apply Object_fromEntries_list_to_map, keptEntries_NoDup.
Qed.

Lemma cleanupCounts_lookup_large counts k v :
  (MAX_COUNT_RECORDS < size counts)%nat ->
  cleanupCounts counts !! k = Some v <-> (k, v) ∈ keptEntries counts.
Proof.
  intros Hsz. rewrite cleanupCounts_large by done.
  symmetry. apply elem_of_list_to_map, keptEntries_NoDup.
Qed.

Lemma keptEntries_lookup counts k v :
  (k, v) ∈ keptEntries counts -> counts !! k = Some v.
Proof.
  unfold keptEntries, Object_entries. intros Hin.
  apply elem_of_map_to_list, (sort_elem_of compareCounts).
  by eapply subseteq_take.
Qed.

(** [cleanupCounts] only ever drops entries. *)
Lemma cleanupCounts_subseteq counts : cleanupCounts counts ⊆ counts.
Proof.
  destruct (Nat.le_gt_cases (size counts) MAX_COUNT_RECORDS) as [Hs|Hl].
  - by rewrite cleanupCounts_small.
  - apply map_subseteq_spec. intros k v Hkv.
    by apply keptEntries_lookup, cleanupCounts_lookup_large.
Qed.

(** C5. A count map of more than 100 entries is pruned to exactly 100
    entries, all of them entries of the input, and every kept entry's count
    is greater than or equal to every dropped entry's count; a map of 100
    entries or fewer is returned unchanged. *)
Theorem cleanupCounts_keeps_top_100 (counts : gmap jsstring Z) :
  ((size counts <= 100)%nat -> cleanupCounts counts = counts) /\
  ((100 < size counts)%nat ->
     size (cleanupCounts counts) = 100%nat /\
     cleanupCounts counts ⊆ counts /\
     forall k v k' v',
       cleanupCounts counts !! k = Some v ->
       counts !! k' = Some v' ->
       cleanupCounts counts !! k' = None ->
       v' <= v).
Proof.
  split; [apply cleanupCounts_small|].
  intros Hsz. split; [|split; [apply cleanupCounts_subseteq|]].
  - rewrite cleanupCounts_large by done.
    rewrite map_size_list_to_map by apply keptEntries_NoDup.
    unfold keptEntries, Object_entries.
    rewrite length_take, sort_length, length_map_to_list.
    unfold MAX_COUNT_RECORDS. lia.
  - intros k v k' v' Hkept Hin Hdropped.
    apply cleanupCounts_lookup_large in Hkept; [|done].
    assert ((k', v') ∈ drop MAX_COUNT_RECORDS
              (sort compareCounts (Object_entries counts))) as Hdrop.
    { apply elem_of_map_to_list, (sort_elem_of compareCounts) in Hin.
      fold (Object_entries counts) in Hin.
      rewrite <- (take_drop MAX_COUNT_RECORDS) in Hin.
      apply elem_of_app in Hin as [Hin|Hin]; [|done].
      apply cleanupCounts_lookup_large in Hin; [|done]. congruence. }
    pose proof (sort_take_drop compareCounts compareCounts_flip
                  compareCounts_trans _ _ _ _ Hkept Hdrop) as Hle.
    unfold cmp_le, compareCounts in Hle. simpl in Hle. lia.
Qed.

(** The 101-entry map is pruned to 100 entries. *)
Lemma cleanupCounts_keeps_top_100_witness :
  (100 < size counts101)%nat /\ size (cleanupCounts counts101) = 100%nat.
Proof.
  assert (100 < size counts101)%nat as H by (vm_compute; lia).
  split; [exact H|].
  exact (proj1 (proj2 (cleanupCounts_keeps_top_100 counts101) H)).
Defined.

(** ** [findBestMatch] *)

Lemma startsWith_refl_length s p :
  JsString.startsWith s p = true -> (length p <= length s)%nat.
Proof.
  revert s. induction p as [|c p IH]; intros s; simpl; [lia|].
  destruct s as [|d s]; [done|].
  intros [_ Hs]%andb_prop. apply IH in Hs. simpl. lia.
Qed.



(** [counts[a] || 0] is the stored count, or 0 for an absent string, when
    [counts[a]] does not read an inherited member. *)
Lemma count_or_zero_number counts a :
  readsNumber counts a = true ->
  count_or_zero counts a = JsNumber (default 0 (counts !! a)).
Proof.
  unfold readsNumber, count_or_zero, getProperty.
  destruct (counts !! a) as [c|]; simpl.
  - by destruct (Z.eqb_spec c 0) as [->|].
  - by case_bool_decide.
Qed.

(** Between candidates whose counts are read as numbers the comparator is
    never NaN: it is [compareCounted]. *)
Lemma compareMatches_counted counts a b :
  readsNumber counts a = true -> readsNumber counts b = true ->
  sortCompare (compareMatches counts) a b = compareCounted counts a b.
Proof.
  intros Ha Hb. unfold sortCompare, compareMatches, compareCounted.
  rewrite !count_or_zero_number by done. simpl.
  by destruct (negb _).
Qed.

(** A candidate read from [Object.prototype] compares as NaN with every
    differently named candidate; the sort takes that as a tie. *)
Lemma compareMatches_inherited counts a b :
  a <> b -> readsNumber counts a = false \/ readsNumber counts b = false ->
  sortCompare (compareMatches counts) a b = 0.
Proof.
  intros Hne Hread. unfold sortCompare, compareMatches, count_or_zero, readsNumber in *.
  destruct (getProperty counts a) as [x| f |] eqn:Ha,
           (getProperty counts b) as [y| g |] eqn:Hb;
    simpl in *; try (by destruct Hread);
    try (by destruct (x =? 0)); try (by destruct (y =? 0)).
  assert (f = a /\ g = b) as [-> ->].
  { unfold getProperty in Ha, Hb.
    destruct (counts !! a), (counts !! b); try done.
    repeat case_bool_decide; try done. by injection Ha as <-; injection Hb as <-. }
  by rewrite bool_decide_eq_false_2 by congruence.
Qed.

(** The sort only compares elements of the array. *)
Lemma sort_insert_ext_in {A} (f g : A -> A -> Z) x l :
  (forall y, y ∈ l -> f x y = g x y) ->
  sort_insert f x l = sort_insert g x l.
Proof.
  induction l as [|y l IH]; intros Hfg; simpl; [done|].
  rewrite (Hfg y) by left. rewrite IH; [done|].
  intros z Hz. apply Hfg. by right.
Qed.

Lemma sort_ext_in {A} (f g : A -> A -> Z) l :
  (forall a b, a ∈ l -> b ∈ l -> f a b = g a b) ->
  sort f l = sort g l.
Proof.
  induction l as [|x l IH]; intros Hfg; simpl; [done|].
  rewrite <- IH by (intros a b Ha Hb; apply Hfg; by right).
  apply sort_insert_ext_in. intros y Hy%sort_elem_of.
  apply Hfg; [left|by right].
Qed.

Section Search.
Context `{R : Runtime}.

Lemma is_match_spec query item :
  is_match query item = true <->
  JsString.startsWith (toLowerCase item) (toLowerCase query) = true /\
  (length query < length item)%nat.
Proof.
  unfold is_match. rewrite andb_true_iff, Nat.ltb_lt. done.
Qed.

(** What [bestMatch] returns is a match of the history. *)
Lemma bestMatch_Some cleanedCounts query history m :
  bestMatch cleanedCounts query history = Some m ->
  m ∈ history /\ is_match query m = true.
Proof.
  unfold bestMatch.
  destruct (length (List.filter (is_match query) history) =? 0)%nat; [done|].
  intros Hhead.
  assert (m ∈ List.filter (is_match query) history) as Hm.
  { apply (sort_elem_of (sortCompare (compareMatches cleanedCounts))).
    by apply head_Some_elem_of. }
  apply list_elem_of_In, filter_In in Hm as [Hm1 Hm2].
  split; [by apply list_elem_of_In|done].
Qed.

(** When the counts of all candidates are read as numbers, the search is
    the sort by [compareCounted]. *)
Lemma bestMatch_counted cleanedCounts query history :
  (forall c, c ∈ history -> is_match query c = true ->
             readsNumber cleanedCounts c = true) ->
  sort (sortCompare (compareMatches cleanedCounts))
       (List.filter (is_match query) history)
  = sort (compareCounted cleanedCounts) (List.filter (is_match query) history).
Proof.
  intros Hread. apply sort_ext_in. intros a b Ha Hb.
  apply list_elem_of_In, filter_In in Ha as [Ha1 Ha2].
  apply list_elem_of_In, filter_In in Hb as [Hb1 Hb2].
  apply compareMatches_counted; apply Hread; by try apply list_elem_of_In.
Qed.



(** The write never escapes: [saveCleanedCounts] completes normally. *)
Lemma saveCleanedCounts_Normal counts cleanedCounts st :
  exists st', saveCleanedCounts counts cleanedCounts st = Normal st' /\
    (st' = st \/ setItemJSON st COUNTS_KEY cleanedCounts = Normal st').
Proof.
  unfold saveCleanedCounts, try_catch.
  destruct (negb _); [|by eauto].
  destruct (setItemJSON st COUNTS_KEY cleanedCounts) as [st'|e]; eauto.
Qed.

(** [findBestMatch] always returns, and what it returns is [bestMatch] on
    the loaded history and the pruned counts, or nothing when it is
    disabled or the query is too short. *)
Lemma findBestMatch_returns enabled minLen query st :
  exists st',
    findBestMatch enabled minLen query st =
      Normal (if negb enabled || (length query <? minLen)%nat then None
              else bestMatch (cleanupCounts (loadCounts st)) query (loadHistory st),
              st').
Proof.
  unfold findBestMatch.
  destruct (negb enabled || (length query <? minLen)%nat); [by eauto|].
  destruct (saveCleanedCounts_Normal (loadCounts st)
              (cleanupCounts (loadCounts st)) st) as (st' & -> & _).
  by exists st'.
Qed.

Lemma findBestMatch_Some_inv enabled minLen query st m st' :
  findBestMatch enabled minLen query st = Normal (Some m, st') ->
  enabled = true /\ (minLen <= length query)%nat /\
  bestMatch (cleanupCounts (loadCounts st)) query (loadHistory st) = Some m.
Proof.
  destruct (findBestMatch_returns enabled minLen query st) as (st'' & ->).
  destruct enabled; simpl; [|done].
  destruct (Nat.ltb_spec (length query) minLen); [done|].
  intros [= -> ->]. done.
Qed.

(** A returned match is strictly longer than the query. *)
Lemma returned_match_is_longer enabled minLen query st m st' :
  findBestMatch enabled minLen query st = Normal (Some m, st') ->
  (length query < length m)%nat.
Proof.
  intros (_ & _ & Hbest)%findBestMatch_Some_inv.
  apply bestMatch_Some in Hbest as (_ & Hmatch).
  by apply is_match_spec in Hmatch as [_ Hlen].
Qed.

End Search.

(** C1. Every string returned by the match search starts with the query
    under case-insensitive comparison (its lower-case form starts with the
    lower-case query), is strictly longer than the query, and so is never the
    query itself; it is an item of the history. *)
Theorem findBestMatch_extends_query `{R : Runtime} (enabled : bool) (minLen : nat)
    (query : jsstring) (st : Storage) (m : jsstring) (st' : Storage) :
  findBestMatch enabled minLen query st = Normal (Some m, st') ->
  JsString.startsWith (toLowerCase m) (toLowerCase query) = true /\
  (length query < length m)%nat /\
  m <> query /\
  m ∈ loadHistory st.
Proof.
  intros (_ & _ & Hbest)%findBestMatch_Some_inv.
  apply bestMatch_Some in Hbest as (Hin & Hmatch).
  apply is_match_spec in Hmatch as [Hprefix Hlen].
  repeat split; [done|done| |done].
  intros ->. lia.
Qed.

(** For the query "hel" the search returns "hello world". *)
Lemma findBestMatch_extends_query_witness :
  JsString.startsWith (JsString.ascii_toLowerCase (js "hello world"))
                      (JsString.ascii_toLowerCase (js "hel")) = true /\
  (length (js "hel") < length (js "hello world"))%nat /\
  js "hello world" <> js "hel" /\
  js "hello world" ∈ demo_history storeHello.
Proof.
  apply (findBestMatch_extends_query (R := demoRuntime) true 2 (js "hel")
           storeHello (js "hello world") storeHello).
  vm_compute. reflexivity.
Defined.





(** While the count map has at most 100 entries the ranking uses the stored
    counts themselves. *)
Lemma findBestMatch_ranks_with_stored_counts `{R : Runtime} (st : Storage) :
  (size (loadCounts st) <= 100)%nat ->
  cleanupCounts (loadCounts st) = loadCounts st.
Proof. apply cleanupCounts_small. Qed.

(** C6. When the write of the pruned counts throws, the match search still
    completes normally, leaves the store as it was, and returns what it
    returns with any other behaviour of the write, a successful one
    included. *)
Theorem findBestMatch_swallows_write_failure (R : Runtime)
    (failing other : @Storage R -> jsstring -> gmap jsstring Z -> completion (@Storage R))
    (enabled : bool) (minLen : nat) (query : jsstring) (st : @Storage R) :
  (exists e, failing st COUNTS_KEY
               (cleanupCounts (@loadCounts R st)) = Throw e) ->
  exists r st',
    findBestMatch (H := withSetItem R failing) enabled minLen query st = Normal (r, st) /\
    findBestMatch (H := withSetItem R other) enabled minLen query st = Normal (r, st').
Proof.
  intros [e Hthrow].
  destruct (findBestMatch_returns (R := withSetItem R other) enabled minLen query st)
    as (st' & Hother).
  eexists _, st'. split; [|exact Hother].
  unfold findBestMatch. simpl.
  destruct (negb enabled || (length query <? minLen)%nat); [done|].
  unfold saveCleanedCounts, try_catch. simpl.
  rewrite Hthrow. by destruct (negb _).
Qed.

(** A count map of 101 entries is pruned during the search; with the quota
    exceeded the search returns what it returns when the write succeeds. *)
Lemma findBestMatch_swallows_write_failure_witness :
  exists r st',
    findBestMatch (H := withSetItem demoRuntime quotaExceeded) true 2 (js "hel")
      storeCrowded = Normal (r, storeCrowded) /\
    findBestMatch (H := withSetItem demoRuntime (@setItemJSON demoRuntime)) true 2 (js "hel")
      storeCrowded = Normal (r, st').
Proof.
  apply (findBestMatch_swallows_write_failure demoRuntime quotaExceeded
           (@setItemJSON demoRuntime) true 2 (js "hel") storeCrowded).
  exists (js "QuotaExceededError"). reflexivity.
Defined.

(** ** The hook *)

Lemma slice_from_drop (s : jsstring) (n : nat) :
  JsString.slice s (Z.of_nat n) None = drop n s.
Proof.
  unfold JsString.slice.
  destruct (Z.ltb_spec (Z.of_nat n) 0); [lia|].
  destruct (Nat.le_gt_cases n (length s)) as [Hle|Hgt].
  - rewrite Z.min_l by lia. rewrite Nat2Z.id.
    apply take_ge. rewrite length_drop. lia.
  - rewrite Z.min_r by lia. rewrite Nat2Z.id.
    rewrite !drop_ge by lia. by rewrite take_nil.
Qed.

Lemma suggestionWellFormed_consistent h :
  suggestionWellFormed h -> suggestionConsistent h.
Proof.
  intros [(Hs & s & Hf & _)|[Hs Hf]]; [left|right]; split; try done.
  by rewrite Hf.
Qed.

Section Hook.
Context `{R : Runtime} (o : Options).

Lemma updateQuery_wellFormed text h :
  suggestionWellFormed h -> suggestionWellFormed (updateQuery o text h).
Proof.
  intros Hwf. unfold updateQuery.
  destruct (negb _ || _); [by right|done].
Qed.

Lemma clear_wellFormed h : suggestionWellFormed (clear h).
Proof. by right. Qed.

Lemma applySuggestion_wellFormed h :
  suggestionWellFormed h -> suggestionWellFormed (applySuggestion h).2.
Proof.
  intros Hwf. unfold applySuggestion, applySuggestionOf.
  destruct (fullSuggestion h) as [[|c s]|]; try done. by right.
Qed.

Lemma setEnabled_wellFormed b h :
  suggestionWellFormed h -> suggestionWellFormed (setEnabled b h).
Proof. done. Qed.

Lemma handleStorageChange_wellFormed key newValue h :
  suggestionWellFormed h -> suggestionWellFormed (handleStorageChange key newValue h).
Proof. intros Hwf. unfold handleStorageChange. by case_bool_decide. Qed.

(** The debounce callback completes normally and stores either a whole
    suggestion or none. *)
Lemma searchCallback_wellFormed p h st :
  exists h' st', searchCallback o p h st = Normal (h', st') /\ suggestionWellFormed h'.
Proof.
  unfold searchCallback.
  destruct (findBestMatch_returns (pending_enabled p) (minQueryLength o)
              (pending_cleanText p) st) as (st' & Hret).
  destruct (findBestMatch _ _ _ _) as [[found st'']|e] eqn:Hfind; [|done].
  injection Hret as Hfound ->. simpl.
  destruct found as [[|c m]|].
  - eexists _, _. split; [done|]. by right.
  - eexists _, _. split; [done|]. left. simpl.
    apply returned_match_is_longer in Hfind as Hlen.
    split; [|by eexists].
    rewrite slice_from_drop. intros Hnil.
    apply (f_equal length) in Hnil. rewrite length_drop in Hnil.
    simpl in Hnil, Hlen. lia.
  - eexists _, _. split; [done|]. by right.
Qed.

Lemma timerFires_wellFormed h st :
  suggestionWellFormed h ->
  exists h' st', timerFires o h st = Normal (h', st') /\ suggestionWellFormed h'.
Proof.
  intros Hwf. unfold timerFires.
  destruct (debounceTimer h) as [p|]; [apply searchCallback_wellFormed|by eauto].
Qed.

Lemma hookStep_wellFormed ev h st :
  suggestionWellFormed h ->
  exists h' st', hookStep o ev (h, st) = Normal (h', st') /\ suggestionWellFormed h'.
Proof.
  intros Hwf. destruct ev; simpl.
  - eauto using updateQuery_wellFormed.
  - by apply timerFires_wellFormed.
  - eauto using clear_wellFormed.
  - eauto using applySuggestion_wellFormed.
  - eauto using handleStorageChange_wellFormed.
  - eauto using setEnabled_wellFormed.
  - eauto.
Qed.

Lemma hookRun_wellFormed evs h st :
  suggestionWellFormed h ->
  exists h' st', hookRun o evs (h, st) = Normal (h', st') /\ suggestionWellFormed h'.
Proof.
  revert h st. induction evs as [|ev evs IH]; intros h st Hwf.
  - simpl. eauto.
  - destruct (hookStep_wellFormed ev h st Hwf) as (h1 & st1 & Hstep & Hwf1).
    cbn [hookRun]. rewrite Hstep. by apply IH.
Qed.

End Hook.

(** C3, as stated, fails: the callback reads the [fullSuggestion] of its
    render, which the setters do not change, so a second call of the same
    callback, made before the hook has re-rendered, returns the match
    again. *)
Lemma second_call_of_same_callback_returns_match :
  ~ (forall h : HookState,
       (applySuggestionOf (fullSuggestion h) (applySuggestion h).2).1 = None).
Proof. intros Hclaim. specialize (Hclaim suggestingHello). discriminate Hclaim. Qed.

(** C3, amended.  [applySuggestion] is a consuming read from one render to
    the next: with a suggestion stored, the callback of the render showing
    it returns the full matched string and clears suffix, fullSuggestion and
    last query; with none stored it returns null and changes nothing; a
    second call through the callback of the re-rendered hook returns null;
    a second call of the same callback, before the re-render, returns what
    the first call returned. *)
Theorem applySuggestion_consumes (h : HookState) :
  (forall s, fullSuggestion h = Some s -> s <> [] ->
     (applySuggestion h).1 = Some s /\
     suffix (applySuggestion h).2 = [] /\
     fullSuggestion (applySuggestion h).2 = None /\
     lastQuery (applySuggestion h).2 = []) /\
  (fullSuggestion h = None -> applySuggestion h = (None, h)) /\
  (applySuggestion (applySuggestion h).2).1 = None /\
  (applySuggestionOf (fullSuggestion h) (applySuggestion h).2).1
    = (applySuggestion h).1.
Proof.
  unfold applySuggestion, applySuggestionOf.
  destruct (fullSuggestion h) as [[|c s0]|] eqn:E; simpl; rewrite ?E; simpl.
  - split; [by intros s [= <-]|done].
  - split; [|done]. by intros s [= <-].
  - done.
Qed.

(** Accepting "hello world" returns it and clears the state. *)
Lemma applySuggestion_consumes_witness :
  (applySuggestion suggestingHello).1 = Some (js "hello world") /\
  suffix (applySuggestion suggestingHello).2 = [] /\
  fullSuggestion (applySuggestion suggestingHello).2 = None /\
  lastQuery (applySuggestion suggestingHello).2 = [].
Proof.
  apply (proj1 (applySuggestion_consumes suggestingHello) (js "hello world"));
    [reflexivity|by vm_compute].
Defined.

(** C4. The suggestion state is never partial: every operation, the
    debounce-fired search included, completes and takes a state that is not
    partial to a state that is not partial, and so does every sequence of
    operations from the state the hook is mounted with. *)
Theorem suggestion_state_never_partial `{R : Runtime} (o : Options) :
  (forall ev h st, suggestionConsistent h ->
     exists h' st', hookStep o ev (h, st) = Normal (h', st') /\
                    suggestionConsistent h') /\
  (forall evs st,
     exists h' st', hookRun o evs (initialState st, st) = Normal (h', st') /\
                    suggestionConsistent h').
Proof.
  split.
  - intros ev h st Hc. destruct ev; simpl.
    + eexists _, _. split; [done|]. unfold updateQuery.
      destruct (negb _ || _); [by right|done].
    + unfold timerFires. destruct (debounceTimer h) as [p|]; [|by eauto].
      destruct (searchCallback_wellFormed o p h st) as (h' & st' & -> & Hwf).
      eauto using suggestionWellFormed_consistent.
    + eexists _, _. split; [done|]. by right.
    + eexists _, _. split; [done|]. unfold applySuggestion, applySuggestionOf.
      destruct (fullSuggestion h) as [[|c s]|]; try done. by right.
    + eexists _, _. split; [done|]. unfold handleStorageChange.
      by case_bool_decide.
    + by eauto.
    + by eauto.
  - intros evs st.
    destruct (hookRun_wellFormed o evs (initialState st) st) as (h' & st' & -> & Hwf).
    { by right. }
    eauto using suggestionWellFormed_consistent.
Qed.

(** C7. A change notification for the enabled-flag key leaves the hook
    disabled exactly when the new value is the string "false"; and while the
    hook is disabled the match search returns no suggestion for any query,
    so that a query typed then yields none when its debounce elapses. *)
Theorem disabled_flag_suppresses_suggestions `{R : Runtime} (o : Options) :
  (forall newValue h,
     enabled (handleStorageChange (Some HISTORY_ENABLED_KEY) newValue h) = false
     <-> newValue = Some (js "false")) /\
  (forall minLen query st,
     findBestMatch false minLen query st = Normal (None, st)) /\
  (forall text h st,
     enabled h = false ->
     exists h',
       timerFires o (updateQuery o text h) st = Normal (h', st) /\
       suffix h' = [] /\ fullSuggestion h' = None /\ hasSuggestion h' = false).
Proof.
  split; [|split].
  - intros newValue h. unfold handleStorageChange.
    rewrite bool_decide_eq_true_2 by done. simpl.
    rewrite negb_false_iff. apply bool_decide_eq_true.
  - done.
  - intros text h st Hoff. unfold updateQuery, timerFires.
    destruct (negb _ || _); simpl; [by eauto|].
    unfold searchCallback. simpl. rewrite Hoff. simpl. by eauto.
Qed.

(** With the hook disabled, "hel" yields nothing although the history
    holds "hello world". *)
Lemma disabled_flag_suppresses_suggestions_witness :
  exists h',
    timerFires (H := demoRuntime) defaultOptions
      (updateQuery defaultOptions (js "hel") disabledHook) storeHello
      = Normal (h', storeHello) /\
    suffix h' = [] /\ fullSuggestion h' = None /\ hasSuggestion h' = false.
Proof.
  apply (proj2 (proj2 (disabled_flag_suppresses_suggestions (R := demoRuntime)
           defaultOptions)) (js "hel") disabledHook storeHello).
  reflexivity.
Defined.

(** ** The scenarios of the specification *)

#[local] Existing Instance demoRuntime.

(** "hel" against "hello world" (5 uses) and "help me please" (2 uses):
    the higher count wins and the suffix is "lo world". *)
Example scenario_higher_count_wins :
  exists h st',
    hookRun defaultOptions [UpdateQuery (js "hel"); TimerFires]
      (initialState storeHello, storeHello) = Normal (h, st') /\
    suffix h = js "lo world" /\ fullSuggestion h = Some (js "hello world") /\
    hasSuggestion h = true.
Proof. eexists _, _. split; [vm_compute; reflexivity|]. by vm_compute. Qed.

(** "ab" against "abc", "abcd", "abcde" without counts: the shortest wins
    and the suffix is "c". *)
Example scenario_shortest_wins :
  exists h st',
    hookRun defaultOptions [UpdateQuery (js "ab"); TimerFires]
      (initialState storeAbc, storeAbc) = Normal (h, st') /\
    suffix h = js "c" /\ fullSuggestion h = Some (js "abc").
Proof. eexists _, _. split; [vm_compute; reflexivity|]. by vm_compute. Qed.

(** A zero-width space inside "help" is removed before the search. *)
Example scenario_zero_width_cleaned :
  cleanText (js "he" ++ [8203%N] ++ js "lp") = js "help".
Proof. reflexivity. Qed.

(** A query shorter than the minimum length clears the suggestion at once. *)
Example scenario_short_query_clears :
  exists h st',
    hookRun defaultOptions
      [UpdateQuery (js "hel"); TimerFires; UpdateQuery (js "h")]
      (initialState storeHello, storeHello) = Normal (h, st') /\
    suffix h = [] /\ hasSuggestion h = false /\ debounceTimer h = None.
Proof. eexists _, _. split; [vm_compute; reflexivity|]. by vm_compute. Qed.

(** Accepting the suggestion twice: the second call returns nothing. *)
Example scenario_apply_twice :
  exists h st',
    hookRun defaultOptions [UpdateQuery (js "hel"); TimerFires]
      (initialState storeHello, storeHello) = Normal (h, st') /\
    (applySuggestion h).1 = Some (js "hello world") /\
    (applySuggestion (applySuggestion h).2).1 = None.
Proof. eexists _, _. split; [vm_compute; reflexivity|]. by vm_compute. Qed.

(** With 101 counts stored the search prunes them, and the store then
    holds 100. *)
Example scenario_prune_during_search :
  exists r st',
    findBestMatch true 2 (js "hel") storeCrowded = Normal (r, st') /\
    r = Some (js "hello world") /\ size (demo_counts st') = 100%nat /\
    demo_counts st' !! [0%N] = None.
Proof. eexists _, _. split; [vm_compute; reflexivity|]. by vm_compute. Qed.

(** ** [onKeyDown] *)

Section KeyboardProps.
Import Keyboard.

(** Membership of an effect in a literal trace. *)
Ltac effect_not_in :=
  let Hin := fresh "Hin" in
  intros Hin;
  repeat (apply elem_of_cons in Hin as [Hin|Hin]; [discriminate Hin|]);
  by apply elem_of_nil in Hin.

Lemma completionStage_no_submit c e effs :
  completionStage c e = Some effs -> HandleSubmit ∉ effs.
Proof.
  unfold completionStage. destruct (isOpen c && handleKeyDown c e); [|done].
  intros [= <-]. destruct (key_is e "Enter"); simpl; effect_not_in.
Qed.

Lemma modeSwitchStage_no_submit o e effs :
  modeSwitchStage o e = Some effs -> HandleSubmit ∉ effs.
Proof.
  unfold modeSwitchStage. destruct (_ && _ && _); [|done].
  destruct (permissionMode o) as [[|c m]|]; try done.
  destruct (_ && _); [|done]. intros [= <-]. effect_not_in.
Qed.

Lemma inlineStage_no_submit o e effs :
  inlineStage o e = Some effs -> HandleSubmit ∉ effs.
Proof.
  unfold inlineStage. destruct (key_is e "Tab"); [|done].
  destruct (inlineCompletion o) as [[|]|]; try done.
  intros [= <-]. effect_not_in.
Qed.

(** [handleSubmit] is only ever called by the send stage, for a send key
    and with the SDK ready. *)
Lemma onKeyDown_submit_inv o now e :
  HandleSubmit ∈ onKeyDown o now e ->
  isSendKey o now e = true /\ sdkStatusLoading o = false /\ sdkInstalled o = true.
Proof.
  unfold onKeyDown.
  destruct (handleMacCursorMovement o e); [by intros ?%elem_of_nil|].
  destruct (isCursorMovementKey e); [by intros ?%elem_of_nil|].
  destruct (completionStage (fileCompletion o) e) eqn:E1.
  { intros. by apply completionStage_no_submit in E1. }
  destruct (completionStage (commandCompletion o) e) eqn:E2.
  { intros. by apply completionStage_no_submit in E2. }
  destruct (completionStage (agentCompletion o) e) eqn:E3.
  { intros. by apply completionStage_no_submit in E3. }
  destruct (modeSwitchStage o e) eqn:E4.
  { intros. by apply modeSwitchStage_no_submit in E4. }
  destruct (inlineStage o e) eqn:E5.
  { intros. by apply inlineStage_no_submit in E5. }
  destruct (handleHistoryKeyDown o e); [by intros ?%elem_of_nil|].
  unfold sendStage.
  destruct (isSendKey o now e); simpl; [|by intros ?%elem_of_nil].
  destruct (sdkStatusLoading o), (sdkInstalled o); simpl; try done;
    intros Hin; exfalso; revert Hin; effect_not_in.
Qed.

(** An event that reaches the send stage gets that stage's effects. *)
Lemma onKeyDown_reaches_send o now e :
  reachesSendStage o e = true -> onKeyDown o now e = sendStage o now e.
Proof.
  unfold reachesSendStage.
  intros [[[H1 H2]%andb_prop H3]%andb_prop H4]%andb_prop.
  apply negb_true_iff in H1, H2, H3, H4.
  apply bool_decide_eq_false in H2, H3.
  unfold consumedBeforeModeSwitch in H1.
  repeat (apply orb_false_elim in H1 as [H1 ?]).
  unfold onKeyDown, completionStage.
  repeat match goal with
         | Hb : ?b = false |- context [if ?b then _ else _] => rewrite Hb
         end.
  destruct (modeSwitchStage o e); [by destruct H2|].
  destruct (inlineStage o e); [by destruct H3|].
  done.
Qed.

(** C8, as stated, fails: in the modifier+Enter mode a Cmd+Enter pressed
    50ms after the end of a composition reaches the send stage and is
    submitted. *)
Lemma recent_composition_does_not_suppress_cmdEnter :
  ~ (forall o now e,
       reachesSendStage o e = true ->
       isIMEComposing o e = true \/ isRecentlyComposing o now = true ->
       HandleSubmit ∉ onKeyDown o now e).
Proof.
  intros Hclaim.
  apply (Hclaim (idleOptions cmdEnter 950 closedPopup (js "default")) 1000 cmdEnterKey).
  - reflexivity.
  - right. reflexivity.
  - vm_compute. do 2 right. left.
Qed.

(** C8, amended. In both shortcut modes [handleSubmit] is never called
    while a composition is active; in the plain Enter mode it is not called
    either when the composition ended less than 100ms before the event; in
    the modifier+Enter mode a send key that reaches the send stage outside
    a composition is submitted however recently a composition ended. *)
Theorem send_suppressed_during_composition :
  (forall o now e,
     isIMEComposing o e = true \/
     (sendShortcut o = enter /\ now - lastCompositionEndTime o < 100) ->
     HandleSubmit ∉ onKeyDown o now e) /\
  (forall o now e,
     sendShortcut o = cmdEnter ->
     reachesSendStage o e = true ->
     isEnterKey e = true -> metaKey e || ctrlKey e = true ->
     isIMEComposing o e = false ->
     sdkStatusLoading o = false -> sdkInstalled o = true ->
     HandleSubmit ∈ onKeyDown o now e).
Proof.
  split.
  - intros o now e Hcomposing (Hsend & _)%onKeyDown_submit_inv.
    unfold isSendKey, isRecentlyComposing in Hsend.
    destruct Hcomposing as [Hime|[Hmode Hrecent]].
    + rewrite Hime in Hsend. simpl in Hsend.
      destruct (sendShortcut o); by rewrite ?andb_false_r in Hsend.
    + rewrite Hmode in Hsend.
      destruct (Z.ltb_spec (now - lastCompositionEndTime o) 100); [|lia].
      by rewrite andb_false_r in Hsend.
  - intros o now e Hmode Hreach Henter Hmod Hime Hloading Hinstalled.
    rewrite onKeyDown_reaches_send by done.
    unfold sendStage, isSendKey.
    rewrite Hmode, Henter, Hmod, Hime, Hloading, Hinstalled. simpl.
    do 2 right. left.
Qed.

(** An Enter pressed 50ms after the end of a composition is not submitted
    in the plain Enter mode. *)
Lemma send_suppressed_during_composition_witness :
  HandleSubmit ∉ onKeyDown (idleOptions enter 950 closedPopup (js "default")) 1000 enterKey.
Proof.
  apply (proj1 send_suppressed_during_composition
           (idleOptions enter 950 closedPopup (js "default")) 1000 enterKey).
  right. split; [reflexivity|]. simpl. lia.
Defined.

(** The same Enter a second later is submitted. *)
Example enter_submits_after_composition :
  onKeyDown (idleOptions enter 950 closedPopup (js "default")) 2000 enterKey
  = [PreventDefault; SetSubmittedOnEnter; HandleSubmit].
Proof. reflexivity. Qed.

Lemma indexOf_not_elem_of arr x : x ∉ arr -> indexOf arr x = -1.
Proof.
  induction arr as [|y arr IH]; simpl; [done|].
  intros [Hne Hnin]%not_elem_of_cons.
  rewrite bool_decide_eq_false_2 by done.
  by rewrite IH.
Qed.

(** The mode after [mode]: the next one in [modeOrder], cyclically, and
    "default" after a mode that is not in [modeOrder]. *)
Lemma nextMode_spec mode :
  exists next,
    nextMode mode = Some next /\
    (forall i, modeOrder !! i = Some mode ->
               modeOrder !! ((i + 1) mod 4)%nat = Some next) /\
    (mode ∉ modeOrder -> next = js "default").
Proof.
  destruct (decide (mode ∈ modeOrder)) as [Hin|Hnin].
  - pose proof Hin as [i Hi]%list_elem_of_lookup.
    assert (i < 4)%nat as Hlt by (by apply lookup_lt_Some in Hi).
    destruct i as [|[|[|[|i]]]]; [| | | |lia];
      simpl in Hi; injection Hi as <-;
      (eexists; split; [reflexivity|]; split; [|by intros []]);
      intros [|[|[|[|j]]]] Hj; vm_compute in Hj; try discriminate Hj;
      reflexivity.
  - exists (js "default"). unfold nextMode.
    rewrite indexOf_not_elem_of by done. split; [done|]. split; [|done].
    intros i Hi. destruct Hnin. by eapply list_elem_of_lookup_2.
Qed.

(** C9, as stated, fails: with the file popup open and taking the key, a
    Shift+Tab pressed outside a composition, with the provider "claude", the
    callback and the mode "default" given, never gets to the callback. *)
Lemma shift_tab_taken_by_open_popup :
  ~ (forall o now e mode,
       key e = js "Tab" -> shiftKey e = true -> isIMEComposing o e = false ->
       currentProvider o = Some (js "claude") -> onModeSelect o = true ->
       permissionMode o = Some mode -> mode <> [] ->
       exists next, ModeSelect next ∈ onKeyDown o now e).
Proof.
  intros Hclaim.
  destruct (Hclaim (idleOptions enter 0 greedyPopup (js "default")) 1000
              shiftTabKey (js "default")) as [next Hin]; try reflexivity.
  - done.
  - revert Hin. vm_compute. effect_not_in.
Qed.

(** C9, amended. A Shift+Tab key-down that no earlier stage consumes (the
    Mac cursor handler, the cursor keys, an open completion popup taking the
    key), pressed outside a composition with the provider "claude", the
    callback given and a non-empty current mode, is consumed and the
    callback receives the next mode in the order default, plan, acceptEdits,
    bypassPermissions, cyclically; for a current mode outside that list it
    receives "default". *)
Theorem shift_tab_cycles_mode (o : Options) (now : Z) (e : KeyEvent) (mode : jsstring) :
  consumedBeforeModeSwitch o e = false ->
  key e = js "Tab" -> shiftKey e = true -> isIMEComposing o e = false ->
  currentProvider o = Some (js "claude") -> onModeSelect o = true ->
  permissionMode o = Some mode -> mode <> [] ->
  exists next,
    onKeyDown o now e = [PreventDefault; StopPropagation; ModeSelect (Some next)] /\
    (forall i, modeOrder !! i = Some mode ->
               modeOrder !! ((i + 1) mod 4)%nat = Some next) /\
    (mode ∉ modeOrder -> next = js "default").
Proof.
  intros Hfree Hkey Hshift Hime Hprovider Hcallback Hmode Hne.
  destruct (nextMode_spec mode) as (next & Hnext & Hcycle & Hmiss).
  exists next. split; [|done].
  unfold consumedBeforeModeSwitch in Hfree.
  repeat (apply orb_false_elim in Hfree as [Hfree ?]).
  unfold onKeyDown, completionStage.
  repeat match goal with
         | Hb : ?b = false |- context [if ?b then _ else _] => rewrite Hb
         end.
  unfold modeSwitchStage, key_is.
  rewrite Hkey, Hshift, Hime, Hmode, Hprovider, Hcallback.
  rewrite !bool_decide_eq_true_2 by done. simpl.
  destruct mode as [|c m]; [done|]. by rewrite Hnext.
Qed.

(** From "bypassPermissions" the callback receives "default". *)
Lemma shift_tab_cycles_mode_witness :
  exists next,
    onKeyDown (idleOptions enter 0 closedPopup (js "bypassPermissions")) 1000 shiftTabKey
      = [PreventDefault; StopPropagation; ModeSelect (Some next)] /\
    (forall i, modeOrder !! i = Some (js "bypassPermissions") ->
               modeOrder !! ((i + 1) mod 4)%nat = Some next) /\
    (js "bypassPermissions" ∉ modeOrder -> next = js "default").
Proof.
  apply (shift_tab_cycles_mode (idleOptions enter 0 closedPopup (js "bypassPermissions"))
           1000 shiftTabKey (js "bypassPermissions")); try reflexivity.
  discriminate.
Defined.

(** The four steps of the cycle, and a mode outside the list. *)
Example shift_tab_cycle :
  nextMode (js "default") = Some (js "plan") /\
  nextMode (js "plan") = Some (js "acceptEdits") /\
  nextMode (js "acceptEdits") = Some (js "bypassPermissions") /\
  nextMode (js "bypassPermissions") = Some (js "default") /\
  nextMode (js "auto") = Some (js "default").
Proof. repeat split; reflexivity. Qed.

End KeyboardProps.

(** ** [getApiKeyPreview] *)

Section PreviewProps.
Import ConfigInfoDisplay.

Lemma repeat_bullet n : JsString.repeat bullet n = replicate n 8226%N.
Proof. induction n as [|n IH]; simpl; [done|]. by rewrite IH. Qed.

Lemma slice_first (s : jsstring) (n : nat) :
  (n <= length s)%nat -> JsString.slice s 0 (Some (Z.of_nat n)) = take n s.
Proof.
  intros Hn. unfold JsString.slice. simpl.
  destruct (Z.ltb_spec (Z.of_nat n) 0); [lia|].
  rewrite Z.min_l by lia. rewrite Z.min_l by lia. simpl.
  replace (Z.to_nat (Z.max (Z.of_nat n - 0) 0)) with n by lia. done.
Qed.

Lemma slice_last (s : jsstring) (n : nat) :
  (0 < n)%nat ->
  JsString.slice s (- Z.of_nat n) None = drop (length s - n) s.
Proof.
  intros Hn. unfold JsString.slice.
  destruct (Z.ltb_spec (- Z.of_nat n) 0); [|lia].
  replace (Z.to_nat (Z.max (Z.of_nat (length s) + - Z.of_nat n) 0))
    with (length s - n)%nat by lia.
  apply take_ge. rewrite length_drop. lia.
Qed.

(** The masked preview of a key of more than 10 code units. *)
Lemma getApiKeyPreview_long (apiKey : jsstring) :
  (10 < length apiKey)%nat ->
  getApiKeyPreview apiKey false =
    take 8 apiKey ++ replicate 8 8226%N ++ drop (length apiKey - 4) apiKey.
Proof.
  intros Hlen. unfold getApiKeyPreview.
  destruct apiKey as [|c k]; [simpl in Hlen; lia|]. cbn [JsString.truthy negb].
  destruct (Nat.leb_spec (length (c :: k)) 10); [lia|].
  rewrite (slice_first _ 8) by lia.
  rewrite (slice_last _ 4) by lia.
  by rewrite repeat_bullet.
Qed.

(** C10, as stated, fails for the empty key: its preview is the text "not
    configured", not a string of zero bullets. *)
Lemma empty_key_preview_is_not_bullets :
  ~ (forall apiKey : jsstring,
       (length apiKey <= 10)%nat ->
       getApiKeyPreview apiKey false = replicate (length apiKey) 8226%N).
Proof. intros Hclaim. specialize (Hclaim [] ltac:(simpl; lia)). discriminate Hclaim. Qed.

(** C10, amended. The masked preview of a key of more than 10 code units is
    its first 8, then exactly 8 bullets, then its last 4, so two such keys
    that agree on their first 8 and last 4 have the same preview; the preview
    of a non-empty key of at most 10 code units is as many bullets as the
    key is long; the preview of the empty key is the text "not
    configured". *)
Theorem getApiKeyPreview_masks_middle :
  (forall apiKey : jsstring,
     (10 < length apiKey)%nat ->
     getApiKeyPreview apiKey false =
       take 8 apiKey ++ replicate 8 8226%N ++ drop (length apiKey - 4) apiKey) /\
  (forall k1 k2 : jsstring,
     (10 < length k1)%nat -> (10 < length k2)%nat ->
     take 8 k1 = take 8 k2 ->
     drop (length k1 - 4) k1 = drop (length k2 - 4) k2 ->
     getApiKeyPreview k1 false = getApiKeyPreview k2 false) /\
  (forall apiKey : jsstring,
     (0 < length apiKey <= 10)%nat ->
     getApiKeyPreview apiKey false = replicate (length apiKey) 8226%N) /\
  getApiKeyPreview [] false = notConfigured.
Proof.
  split; [exact getApiKeyPreview_long|]. split; [|split; [|done]].
  - intros k1 k2 H1 H2 Hfirst Hlast.
    rewrite !getApiKeyPreview_long by done. by rewrite Hfirst, Hlast.
  - intros apiKey [Hpos Hle]. unfold getApiKeyPreview.
    destruct apiKey as [|c k]; [simpl in Hpos; lia|]. cbn [JsString.truthy negb].
    destruct (Nat.leb_spec (length (c :: k)) 10); [|lia].
    apply repeat_bullet.
Qed.

(** Two keys of 15 code units that differ only in the middle have the same
    preview. *)
Lemma getApiKeyPreview_masks_middle_witness :
  getApiKeyPreview (js "sk-ant-AAAA1234") false
  = getApiKeyPreview (js "sk-ant-ABBB1234") false.
Proof.
  apply (proj1 (proj2 getApiKeyPreview_masks_middle)
           (js "sk-ant-AAAA1234") (js "sk-ant-ABBB1234"));
    [simpl; lia | simpl; lia | reflexivity | reflexivity].
Defined.

Example preview_long_key :
  getApiKeyPreview (js "sk-ant-AAAA1234") false
  = js "sk-ant-A" ++ replicate 8 8226%N ++ js "1234".
Proof. reflexivity. Qed.

Example preview_short_key :
  getApiKeyPreview (js "secret") false = replicate 6 8226%N.
Proof. reflexivity. Qed.

Example preview_shown_key :
  getApiKeyPreview (js "sk-ant-AAAA1234") true = js "sk-ant-AAAA1234".
Proof. reflexivity. Qed.

End PreviewProps.

(** * Part III: further properties of the code *)

(** Refutes membership in a literal list whose elements all differ from
    the one looked for. *)
Ltac not_in_literal :=
  let Hin := fresh "Hin" in
  intros Hin;
  repeat (apply elem_of_cons in Hin as [Hin|Hin]; [discriminate Hin|]);
  by apply elem_of_nil in Hin.

(** ** [onKeyDown] and [onKeyUp] *)

Section KeyboardMore.
Import Keyboard.

(** The traces [onKeyDown] can produce. *)
Lemma onKeyDown_traces o now e :
  onKeyDown o now e = [] \/
  onKeyDown o now e = [PreventDefault] \/
  onKeyDown o now e = [PreventDefault; StopPropagation] \/
  onKeyDown o now e = [PreventDefault; StopPropagation; SetCompletionSelected] \/
  (exists mode, onKeyDown o now e =
                  [PreventDefault; StopPropagation; ModeSelect (nextMode mode)] /\
                modeSwitchStage o e =
                  Some [PreventDefault; StopPropagation; ModeSelect (nextMode mode)]) \/
  (onKeyDown o now e = [PreventDefault; SetSubmittedOnEnter; HandleSubmit] /\
   isSendKey o now e = true /\ sdkStatusLoading o = false /\ sdkInstalled o = true).
Proof.
  unfold onKeyDown, completionStage.
  destruct (handleMacCursorMovement o e); [by left|].
  destruct (isCursorMovementKey e); [by left|].
  destruct (isOpen (fileCompletion o) && _).
  { destruct (key_is e "Enter"); simpl; tauto. }
  destruct (isOpen (commandCompletion o) && _).
  { destruct (key_is e "Enter"); simpl; tauto. }
  destruct (isOpen (agentCompletion o) && _).
  { destruct (key_is e "Enter"); simpl; tauto. }
  destruct (modeSwitchStage o e) as [effs|] eqn:Hmode.
  { do 4 right. left. revert Hmode. unfold modeSwitchStage.
    destruct (_ && _ && _); [|done].
    destruct (permissionMode o) as [[|c m]|]; try done.
    destruct (_ && _); [|done]. intros [= <-]. by exists (c :: m). }
  unfold inlineStage.
  destruct (key_is e "Tab").
  { destruct (inlineCompletion o) as [[|]|]; [tauto| |];
      (destruct (handleHistoryKeyDown o e); [by left|]);
      unfold sendStage;
      (destruct (isSendKey o now e); simpl; [|by left]);
      destruct (sdkStatusLoading o), (sdkInstalled o); simpl; tauto. }
  destruct (handleHistoryKeyDown o e); [by left|].
  unfold sendStage.
  destruct (isSendKey o now e); simpl; [|by left].
  destruct (sdkStatusLoading o), (sdkInstalled o); simpl; tauto.
Qed.

(** X1. [handleSubmit] is called only for an Enter key, outside a
    composition, with the SDK installed and not loading; the event's
    default is then prevented and [submittedOnEnterRef] set before the
    call, and nothing else is done. *)
Theorem submit_only_when_sdk_ready (o : Options) (now : Z) (e : KeyEvent) :
  HandleSubmit ∈ onKeyDown o now e ->
  onKeyDown o now e = [PreventDefault; SetSubmittedOnEnter; HandleSubmit] /\
  isEnterKey e = true /\ isIMEComposing o e = false /\
  sdkStatusLoading o = false /\ sdkInstalled o = true.
Proof.
  intros Hin.
  destruct (onKeyDown_traces o now e)
    as [H|[H|[H|[H|[(mode & H & _)|(H & Hsend & Hload & Hinst)]]]]];
    try (rewrite H in Hin; exfalso; revert Hin; not_in_literal).
  split; [done|]. split; [|split; [|done]].
  - unfold isSendKey in Hsend.
    destruct (sendShortcut o), (isEnterKey e); simpl in Hsend; done.
  - unfold isSendKey in Hsend.
    destruct (sendShortcut o), (isIMEComposing o e); simpl in Hsend;
      rewrite ?andb_false_r in Hsend; done.
Qed.

(** Cmd+Enter in the modifier+Enter mode is submitted. *)
Lemma submit_only_when_sdk_ready_witness :
  onKeyDown (idleOptions cmdEnter 0 closedPopup (js "default")) 1000 cmdEnterKey
    = [PreventDefault; SetSubmittedOnEnter; HandleSubmit] /\
  isEnterKey cmdEnterKey = true /\
  isIMEComposing (idleOptions cmdEnter 0 closedPopup (js "default")) cmdEnterKey = false /\
  sdkStatusLoading (idleOptions cmdEnter 0 closedPopup (js "default")) = false /\
  sdkInstalled (idleOptions cmdEnter 0 closedPopup (js "default")) = true.
Proof.
  apply (submit_only_when_sdk_ready (idleOptions cmdEnter 0 closedPopup (js "default"))
           1000 cmdEnterKey).
  vm_compute. do 2 right. left.
Defined.

Lemma nextMode_in_modeOrder mode :
  exists next, nextMode mode = Some next /\ next ∈ modeOrder.
Proof.
  destruct (nextMode_spec mode) as (next & Hnext & Hcycle & Hmiss).
  exists next. split; [done|].
  destruct (decide (mode ∈ modeOrder)) as [Hin|Hnin].
  - apply list_elem_of_lookup in Hin as [i Hi].
    eapply list_elem_of_lookup_2, Hcycle, Hi.
  - rewrite (Hmiss Hnin). left.
Qed.

(** X2. The mode callback is only ever called for a Shift+Tab pressed
    outside a composition with the provider "claude" and the callback
    given, and what it receives is always one of the four modes, never
    [undefined]. *)
Theorem mode_callback_gets_a_known_mode (o : Options) (now : Z) (e : KeyEvent)
    (m : option jsstring) :
  ModeSelect m ∈ onKeyDown o now e ->
  (exists mode, m = Some mode /\ mode ∈ modeOrder) /\
  key e = js "Tab" /\ shiftKey e = true /\ isIMEComposing o e = false /\
  currentProvider o = Some (js "claude") /\ onModeSelect o = true.
Proof.
  intros Hin.
  destruct (onKeyDown_traces o now e)
    as [H|[H|[H|[H|[(mode & H & Hstage)|(H & _)]]]]];
    try (rewrite H in Hin; exfalso; revert Hin; not_in_literal).
  rewrite H in Hin.
  assert (m = nextMode mode) as ->.
  { apply elem_of_cons in Hin as [Hin|Hin]; [discriminate Hin|].
    apply elem_of_cons in Hin as [Hin|Hin]; [discriminate Hin|].
    apply elem_of_cons in Hin as [Hin|Hin]; [by injection Hin|].
    by apply elem_of_nil in Hin. }
  split.
  { destruct (nextMode_in_modeOrder mode) as (next & -> & Hnext). by exists next. }
  revert Hstage. unfold modeSwitchStage, key_is.
  destruct (bool_decide (key e = js "Tab")) eqn:Hkey; [|done].
  destruct (shiftKey e); [|done].
  destruct (isIMEComposing o e); [done|]. simpl.
  destruct (permissionMode o) as [[|c m']|]; try done.
  destruct (bool_decide (currentProvider o = Some (js "claude"))) eqn:Hprov; [|done].
  destruct (onModeSelect o); [|done]. intros _.
  apply bool_decide_eq_true in Hkey, Hprov. done.
Qed.

(** Shift+Tab from "plan" hands "acceptEdits" to the callback. *)
Lemma mode_callback_gets_a_known_mode_witness :
  (exists mode, Some (js "acceptEdits") = Some mode /\ mode ∈ modeOrder) /\
  key shiftTabKey = js "Tab" /\ shiftKey shiftTabKey = true /\
  isIMEComposing (idleOptions enter 0 closedPopup (js "plan")) shiftTabKey = false /\
  currentProvider (idleOptions enter 0 closedPopup (js "plan")) = Some (js "claude") /\
  onModeSelect (idleOptions enter 0 closedPopup (js "plan")) = true.
Proof.
  apply (mode_callback_gets_a_known_mode (idleOptions enter 0 closedPopup (js "plan"))
           1000 shiftTabKey (Some (js "acceptEdits"))).
  vm_compute. do 2 right. left.
Defined.

(** X3. Pressing Shift+Tab four times from any of the four modes comes back
    to it, and one, two or three presses do not: the modes form one cycle
    of length four. *)
Theorem shift_tab_cycle_has_period_four (mode : jsstring) :
  mode ∈ modeOrder ->
  pressShiftTab 4 mode = Some mode /\
  forall n, (0 < n < 4)%nat -> pressShiftTab n mode <> Some mode.
Proof.
  intros Hin.
  repeat (apply elem_of_cons in Hin as [->|Hin]);
    [| | | |by apply elem_of_nil in Hin];
    (split; [reflexivity|]);
    intros [|[|[|[|n]]]] Hn; try lia; vm_compute; discriminate.
Qed.

Lemma shift_tab_cycle_has_period_four_witness :
  pressShiftTab 4 (js "acceptEdits") = Some (js "acceptEdits") /\
  forall n, (0 < n < 4)%nat -> pressShiftTab n (js "acceptEdits") <> Some (js "acceptEdits").
Proof.
  apply (shift_tab_cycle_has_period_four (js "acceptEdits")).
  do 2 right. left.
Defined.

Lemma refsAfter_onKeyDown o now e r :
  refsAfter (onKeyDown o now e) r = r \/
  (SetCompletionSelected ∈ onKeyDown o now e /\
   refsAfter (onKeyDown o now e) r =
     {| completionSelected := true; submittedOnEnter := submittedOnEnter r |}) \/
  refsAfter (onKeyDown o now e) r =
    {| completionSelected := completionSelected r; submittedOnEnter := true |}.
Proof.
  destruct (onKeyDown_traces o now e)
    as [H|[H|[H|[H|[(mode & H & _)|(H & _)]]]]]; rewrite H; simpl; auto.
  right. left. split; [|done]. do 2 right. left.
Qed.

(** X4. Pressing and releasing a send key leaves neither ref set: whatever
    the key-down did (a popup took the Enter, the message was submitted, or
    nothing), the key-up of that key brings both refs back to [false]. *)
Theorem send_key_press_and_release_clears_refs (o : Options) (now : Z)
    (e : KeyEvent) (r : Refs) :
  isSendKeyUp o e = true ->
  completionSelected r = false -> submittedOnEnter r = false ->
  (onKeyUp o e (refsAfter (onKeyDown o now e) r)).2 = r.
Proof.
  intros Hsend Hc Hs. destruct r as [c s]. simpl in Hc, Hs. subst.
  unfold onKeyUp. rewrite Hsend.
  destruct (refsAfter_onKeyDown o now e
              {| completionSelected := false; submittedOnEnter := false |})
    as [->|[[_ ->]| ->]]; done.
Qed.

(** Enter submitted in the plain Enter mode, then released. *)
Lemma send_key_press_and_release_clears_refs_witness :
  (onKeyUp (idleOptions enter 0 closedPopup (js "default")) enterKey
     (refsAfter (onKeyDown (idleOptions enter 0 closedPopup (js "default")) 1000 enterKey)
        {| completionSelected := false; submittedOnEnter := false |})).2
  = {| completionSelected := false; submittedOnEnter := false |}.
Proof.
  apply (send_key_press_and_release_clears_refs
           (idleOptions enter 0 closedPopup (js "default")) 1000 enterKey
           {| completionSelected := false; submittedOnEnter := false |});
    reflexivity.
Defined.

(** X5. In the modifier+Enter mode the key-up of a plain Enter is not a
    send key-up: when a completion popup took that Enter and set
    [completionSelectedRef], the ref is still set after the key-up. *)
Theorem popup_enter_flag_outlives_key_up (o : Options) (now : Z)
    (e : KeyEvent) (r : Refs) :
  sendShortcut o = cmdEnter -> metaKey e = false -> ctrlKey e = false ->
  SetCompletionSelected ∈ onKeyDown o now e ->
  completionSelected (onKeyUp o e (refsAfter (onKeyDown o now e) r)).2 = true.
Proof.
  intros Hmode Hmeta Hctrl Hin.
  unfold onKeyUp, isSendKeyUp. rewrite Hmode, Hmeta, Hctrl, andb_false_r. simpl.
  destruct (onKeyDown_traces o now e)
    as [H|[H|[H|[H|[(mode & H & _)|(H & _)]]]]];
    rewrite H in Hin |- *; try done;
    exfalso; revert Hin; not_in_literal.
Qed.

Lemma popup_enter_flag_outlives_key_up_witness :
  completionSelected
    (onKeyUp (idleOptions cmdEnter 0 greedyPopup (js "default")) enterKey
       (refsAfter (onKeyDown (idleOptions cmdEnter 0 greedyPopup (js "default")) 1000 enterKey)
          {| completionSelected := false; submittedOnEnter := false |})).2 = true.
Proof.
  apply (popup_enter_flag_outlives_key_up
           (idleOptions cmdEnter 0 greedyPopup (js "default")) 1000 enterKey
           {| completionSelected := false; submittedOnEnter := false |});
    try reflexivity.
  vm_compute. do 2 right. left.
Defined.

(** X6. A Tab that no earlier stage consumes and that the mode switch does
    not take accepts the inline suggestion: the event is consumed and
    nothing else is done.  The mode switch does not take a plain Tab, nor a
    Shift+Tab when the provider is not "claude". *)
Theorem tab_accepts_inline_suggestion (o : Options) (now : Z) (e : KeyEvent) :
  consumedBeforeModeSwitch o e = false ->
  key e = js "Tab" ->
  inlineCompletion o = Some true ->
  shiftKey e = false \/ currentProvider o <> Some (js "claude") ->
  onKeyDown o now e = [PreventDefault; StopPropagation].
Proof.
  intros Hfree Hkey Hinline Hnoswitch.
  unfold consumedBeforeModeSwitch in Hfree.
  repeat (apply orb_false_elim in Hfree as [Hfree ?]).
  unfold onKeyDown, completionStage.
  repeat match goal with
         | Hb : ?b = false |- context [if ?b then _ else _] => rewrite Hb
         end.
  assert (modeSwitchStage o e = None) as ->.
  { unfold modeSwitchStage.
    destruct Hnoswitch as [->|Hprov]; [by rewrite andb_false_r|].
    destruct (_ && _ && _); [|done].
    destruct (permissionMode o) as [[|c m]|]; try done.
    by rewrite bool_decide_eq_false_2. }
  unfold inlineStage, key_is. rewrite Hkey, Hinline.
  by rewrite bool_decide_eq_true_2.
Qed.

(** With another provider, Shift+Tab accepts the suggestion. *)
Lemma tab_accepts_inline_suggestion_witness :
  onKeyDown suggestingOptions 1000 shiftTabKey = [PreventDefault; StopPropagation].
Proof.
  apply (tab_accepts_inline_suggestion suggestingOptions 1000 shiftTabKey);
    [reflexivity | reflexivity | reflexivity |].
  right. by vm_compute.
Defined.

End KeyboardMore.

(** ** The hook, continued *)

Section HookMore.
Context `{R : Runtime} (o : Options).

Lemma updateQuery_enabled text h : enabled (updateQuery o text h) = enabled h.
Proof. unfold updateQuery. by destruct (negb _ || _). Qed.

(** X7. Debouncing: of two calls of [updateQuery] made before the timer
    fires only the second counts; the state after the timer fires is the
    one the second call alone would have given. *)
Theorem only_last_update_is_searched (t1 t2 : jsstring) (h : HookState) (st : Storage) :
  timerFires o (updateQuery o t2 (updateQuery o t1 h)) st
  = timerFires o (updateQuery o t2 h) st.
Proof.
  unfold updateQuery at 1 3.
  destruct (negb (JsString.truthy (cleanText t2)) || _);
    unfold timerFires, searchCallback; simpl;
    by rewrite updateQuery_enabled.
Qed.

(** Without a pending search and without a suggestion, nothing but
    [updateQuery] brings a suggestion or a pending search about. *)
Lemma quiet_run evs h st :
  Forall (fun ev => isUpdateQuery ev = false) evs ->
  debounceTimer h = None -> fullSuggestion h = None -> suffix h = [] ->
  exists h' st',
    hookRun o evs (h, st) = Normal (h', st') /\
    debounceTimer h' = None /\ fullSuggestion h' = None /\ suffix h' = [].
Proof.
  intros Hevs. revert h st.
  induction Hevs as [|ev evs Hev _ IH]; intros h st Ht Hf Hs.
  - simpl. by eexists _, _.
  - cbn [hookRun].
    assert (exists h1 st1, hookStep o ev (h, st) = Normal (h1, st1) /\
              debounceTimer h1 = None /\ fullSuggestion h1 = None /\ suffix h1 = [])
      as (h1 & st1 & -> & Ht1 & Hf1 & Hs1).
    { destruct ev; simpl; try done.
      - unfold timerFires. rewrite Ht. by eexists _, _.
      - by eexists _, _.
      - unfold applySuggestion, applySuggestionOf. rewrite Hf. by eexists _, _.
      - unfold handleStorageChange. case_bool_decide; by eexists _, _.
      - by eexists _, _.
      - by eexists _, _. }
    by apply IH.
Qed.

(** X8. After [clear], or after [updateQuery] with a text whose cleaned
    form is shorter than the minimum length, the suggestion is gone and so
    is any pending search: whatever happens next, no suggestion shows up
    until [updateQuery] is called again. *)
Theorem cleared_until_next_update (ev : HookEvent) (evs : list HookEvent)
    (h : HookState) (st : Storage) :
  ev = Clear \/
  (exists text, ev = UpdateQuery text /\
                (length (cleanText text) < minQueryLength o)%nat) ->
  Forall (fun ev' => isUpdateQuery ev' = false) evs ->
  exists h' st',
    hookRun o (ev :: evs) (h, st) = Normal (h', st') /\
    hasSuggestion h' = false /\ suffix h' = [] /\ fullSuggestion h' = None /\
    debounceTimer h' = None.
Proof.
  intros Hev Hevs. cbn [hookRun].
  assert (exists h1, hookStep o ev (h, st) = Normal (h1, st) /\
            debounceTimer h1 = None /\ fullSuggestion h1 = None /\ suffix h1 = [])
    as (h1 & -> & Ht1 & Hf1 & Hs1).
  { destruct Hev as [->|(text & -> & Hshort)]; simpl; [by eexists|].
    unfold updateQuery.
    destruct (Nat.ltb_spec (length (cleanText text)) (minQueryLength o)); [|lia].
    rewrite orb_true_r. by eexists. }
  destruct (quiet_run evs h1 st Hevs Ht1 Hf1 Hs1) as (h' & st' & Hrun & Ht & Hf & Hs).
  exists h', st'. split; [exact Hrun|].
  unfold hasSuggestion. by rewrite Hs, Hf.
Qed.

(** X9. A change notification that arrives while a search is pending does
    not reach that search: the search runs with the flag it was scheduled
    under, and the outcome is the same as if the notification had arrived
    after the timer fired. *)
Theorem flag_change_commutes_with_pending_search (key newValue : option jsstring)
    (h : HookState) (st : Storage) :
  hookRun o [StorageEvent key newValue; TimerFires] (h, st)
  = hookRun o [TimerFires; StorageEvent key newValue] (h, st).
Proof.
  destruct (bool_decide (key = Some HISTORY_ENABLED_KEY)) eqn:Hkey;
    cbn [hookRun hookStep]; simpl;
    unfold timerFires, handleStorageChange; rewrite Hkey; simpl;
    (destruct (debounceTimer h) as [p|];
       [|by simpl; unfold handleStorageChange; rewrite Hkey]);
    unfold searchCallback;
    destruct (findBestMatch _ _ _ _) as [[[[|c m]|] st']|e]; simpl; try done;
    unfold handleStorageChange; by rewrite Hkey.
Qed.

Lemma hookStep_extendsLastQuery ev h st :
  suggestionExtendsLastQuery o h ->
  exists h' st', hookStep o ev (h, st) = Normal (h', st') /\
                 suggestionExtendsLastQuery o h'.
Proof.
  intros Hinv. destruct ev; simpl.
  - eexists _, _. split; [done|]. unfold updateQuery.
    destruct (negb _ || _); [by intros m|done].
  - unfold timerFires. destruct (debounceTimer h) as [p|]; [|by eexists _, _].
    unfold searchCallback.
    destruct (findBestMatch_returns (pending_enabled p) (minQueryLength o)
                (pending_cleanText p) st) as (st' & Hret).
    destruct (findBestMatch _ _ _ _) as [[found st'']|e] eqn:Hfind; [|done].
    injection Hret as Hfound ->. simpl.
    destruct found as [[|c m]|];
      [by eexists _, _; split; [done|]; intros m'| |
       by eexists _, _; split; [done|]; intros m'].
    eexists _, _. split; [done|]. intros m' [= <-].
    apply findBestMatch_Some_inv in Hfind as (_ & Hmin & Hbest).
    apply bestMatch_Some in Hbest as (_ & Hmatch).
    apply is_match_spec in Hmatch as [Hprefix Hlen].
    unfold hasSuggestion. simpl. rewrite slice_from_drop.
    repeat split; try done.
    destruct (drop (length (pending_cleanText p)) (c :: m)) eqn:Hdrop; [|done].
    apply (f_equal length) in Hdrop. rewrite length_drop in Hdrop.
    simpl in Hdrop, Hlen. lia.
  - eexists _, _. split; [done|]. by intros m.
  - eexists _, _. split; [done|]. unfold applySuggestion, applySuggestionOf.
    destruct (fullSuggestion h) as [[|c s]|] eqn:Hfull; simpl;
      first [done | by intros m].
  - eexists _, _. split; [done|]. unfold handleStorageChange.
    by case_bool_decide.
  - by eexists _, _.
  - by eexists _, _.
Qed.

(** X10. Whenever a suggestion is stored, in any state the hook can reach,
    it is shown ([hasSuggestion]), it extends the last searched query
    case-insensitively and is strictly longer, that query has at least the
    minimum length, and the suffix is the suggestion without its first
    [length query] code units. *)
Theorem suggestion_extends_last_query (evs : list HookEvent) (st : Storage) :
  exists h' st',
    hookRun o evs (initialState st, st) = Normal (h', st') /\
    suggestionExtendsLastQuery o h'.
Proof.
  assert (suggestionExtendsLastQuery o (initialState st)) as Hinit by (by intros m).
  revert Hinit. generalize (initialState st) as h. revert st.
  induction evs as [|ev evs IH]; intros st h Hinv.
  - simpl. by eexists _, _.
  - destruct (hookStep_extendsLastQuery ev h st Hinv) as (h1 & st1 & Hstep & Hinv1).
    cbn [hookRun]. rewrite Hstep. by apply IH.
Qed.

(** X11. The search writes the store only to prune: with at most 100 counts
    stored, or disabled, or for a query shorter than the minimum, it
    returns the store it was given, whatever a write would do. *)
Theorem search_writes_only_to_prune (isEnabled : bool) (minLen : nat)
    (query : jsstring) (st : Storage) :
  (size (loadCounts st) <= 100)%nat \/ isEnabled = false \/
  (length query < minLen)%nat ->
  exists r, findBestMatch isEnabled minLen query st = Normal (r, st).
Proof.
  intros Hcase. unfold findBestMatch.
  destruct (negb isEnabled || (length query <? minLen)%nat) eqn:Hguard;
    [by eexists|].
  apply orb_false_elim in Hguard as [Hen Hlen].
  apply negb_false_iff in Hen. apply Nat.ltb_ge in Hlen.
  destruct Hcase as [Hsmall|[->|Hshort]]; [|done|lia].
  unfold saveCleanedCounts.
  rewrite (cleanupCounts_small _ Hsmall), Nat.eqb_refl.
  by eexists.
Qed.

(** X12. Accepting a suggestion does not cancel a pending search: when the
    timer then fires, the state is the one it would have been without the
    acceptance. *)
Theorem apply_leaves_pending_search (h : HookState) (st : Storage) :
  is_Some (debounceTimer h) ->
  timerFires o (applySuggestion h).2 st = timerFires o h st.
Proof.
  intros [p Hp]. unfold applySuggestion, applySuggestionOf, timerFires.
  destruct (fullSuggestion h) as [[|c s]|]; simpl; try done.
  by rewrite Hp.
Qed.

End HookMore.

(** A search scheduled for "hel" and then fired after the hook is cleared:
    nothing shows. *)
Lemma cleared_until_next_update_witness :
  exists h' st',
    hookRun (H := demoRuntime) defaultOptions [Clear; TimerFires; PollTick]
      (updateQuery defaultOptions (js "hel") suggestingHello, storeHello)
      = Normal (h', st') /\
    hasSuggestion h' = false /\ suffix h' = [] /\ fullSuggestion h' = None /\
    debounceTimer h' = None.
Proof.
  apply (cleared_until_next_update (R := demoRuntime) defaultOptions Clear
           [TimerFires; PollTick]
           (updateQuery defaultOptions (js "hel") suggestingHello) storeHello).
  - by left.
  - repeat constructor.
Defined.

(** With two counts stored the search leaves the store alone. *)
Lemma search_writes_only_to_prune_witness :
  exists r, findBestMatch (H := demoRuntime) true 2 (js "hel") storeHello
            = Normal (r, storeHello).
Proof.
  apply (search_writes_only_to_prune (R := demoRuntime) true 2 (js "hel") storeHello).
  left. vm_compute. lia.
Defined.

(** A search is pending while "hello world" is accepted. *)
Lemma apply_leaves_pending_search_witness :
  timerFires (H := demoRuntime) defaultOptions
    (applySuggestion (updateQuery defaultOptions (js "help") suggestingHello)).2 storeHello
  = timerFires (H := demoRuntime) defaultOptions
      (updateQuery defaultOptions (js "help") suggestingHello) storeHello.
Proof.
  apply (apply_leaves_pending_search (R := demoRuntime) defaultOptions
           (updateQuery defaultOptions (js "help") suggestingHello) storeHello).
  by eexists.
Defined.


(** ** The search and the pruning, continued *)

Lemma head_sort_insert {A} (compareFn : A -> A -> Z) x l :
  head (sort_insert compareFn x l) =
    match head l with
    | Some y => if 0 <? compareFn x y then Some y else Some x
    | None => Some x
    end.
Proof. destruct l as [|y l]; simpl; [done|]. by destruct (0 <? compareFn x y). Qed.

(** The sort is stable at its head: every element that stands before the
    first element of the result in the input goes strictly after it. *)
Lemma sort_head_earliest {A} (compareFn : A -> A -> Z) l x :
  head (sort compareFn l) = Some x ->
  exists l1 l2, l = l1 ++ x :: l2 /\ forall c, c ∈ l1 -> 0 < compareFn c x.
Proof.
  revert x. induction l as [|a l IH]; intros x; simpl; [done|].
  rewrite head_sort_insert.
  destruct (head (sort compareFn l)) as [y|] eqn:Hhead.
  - destruct (Z.ltb_spec 0 (compareFn a y)) as [Hlt|Hge]; intros [= <-].
    + destruct (IH y eq_refl) as (l1 & l2 & -> & Hl1).
      exists (a :: l1), l2. split; [done|].
      intros c [->|Hc]%elem_of_cons; [done|by apply Hl1].
    + exists [], l. split; [done|]. by intros c ?%elem_of_nil.
  - intros [= <-]. exists [], l. split; [done|]. by intros c ?%elem_of_nil.
Qed.

Section SearchMore.
Context `{R : Runtime}.

(** X13. Ties go to the history order.  With at most 100 counts stored
    and no candidate read from [Object.prototype], every candidate that
    stands before the returned match in the history has a strictly lower
    stored count, or the same stored count and a strictly greater length;
    so among the candidates of best count and least length the earliest in
    the history is returned. *)
Theorem findBestMatch_ties_go_to_earliest (isEnabled : bool) (minLen : nat)
    (query : jsstring) (st : Storage) (m : jsstring) (st' : Storage) :
  findBestMatch isEnabled minLen query st = Normal (Some m, st') ->
  (size (loadCounts st) <= 100)%nat ->
  (forall c, c ∈ loadHistory st -> is_match query c = true ->
     readsNumber (loadCounts st) c = true) ->
  exists before after,
    List.filter (is_match query) (loadHistory st) = before ++ m :: after /\
    forall c, c ∈ before ->
      let stored a := default 0 (loadCounts st !! a) in
      stored c < stored m \/ (stored c = stored m /\ (length m < length c)%nat).
Proof.
  intros (_ & _ & Hbest)%findBestMatch_Some_inv Hsmall Hread.
  rewrite (cleanupCounts_small _ Hsmall) in Hbest.
  unfold bestMatch in Hbest.
  destruct (length (List.filter (is_match query) (loadHistory st)) =? 0)%nat;
    [done|].
  rewrite bestMatch_counted in Hbest by done.
  apply sort_head_earliest in Hbest as (before & after & Hsplit & Hbefore).
  exists before, after. split; [done|].
  intros c Hc stored. subst stored. simpl.
  specialize (Hbefore c Hc). unfold compareCounted in Hbefore.
  destruct (Z.eqb_spec (default 0 (loadCounts st !! m))
              (default 0 (loadCounts st !! c)));
    simpl in Hbefore; lia.
Qed.

(** X25. A candidate that is not a key of the count map and is named like a
    member of [Object.prototype] is compared through that member: its
    comparison with a differently named candidate is NaN, which the sort
    takes as a tie.  So when the query has two candidates and one of them is
    read from [Object.prototype], the one standing first in the history is
    returned, whatever the usage count of the other. *)
Theorem inherited_member_ties_with_any_count (minLen : nat) (query : jsstring)
    (st : Storage) (a b : jsstring) :
  (minLen <= length query)%nat ->
  List.filter (is_match query) (loadHistory st) = [a; b] ->
  a <> b ->
  readsNumber (cleanupCounts (loadCounts st)) a = false \/
  readsNumber (cleanupCounts (loadCounts st)) b = false ->
  exists st', findBestMatch true minLen query st = Normal (Some a, st').
Proof.
  intros Hlen Hmatches Hne Hread.
  destruct (findBestMatch_returns true minLen query st) as (st' & Hret).
  destruct (Nat.ltb_spec (length query) minLen); [lia|]. simpl in Hret.
  exists st'. rewrite Hret. do 2 f_equal.
  unfold bestMatch. rewrite Hmatches. simpl.
  by rewrite (compareMatches_inherited _ a b Hne Hread).
Qed.

End SearchMore.

(** A history whose three candidates for "ab" tie on count and length. *)
Lemma findBestMatch_ties_go_to_earliest_witness :
  exists before after,
    List.filter (is_match (H := demoRuntime) (js "ab")) (demo_history storeTies)
      = before ++ js "abX" :: after /\
    forall c, c ∈ before ->
      let stored a := default 0 (demo_counts storeTies !! a) in
      stored c < stored (js "abX") \/
      (stored c = stored (js "abX") /\ (length (js "abX") < length c)%nat).
Proof.
  apply (findBestMatch_ties_go_to_earliest (R := demoRuntime) true 2 (js "ab")
           storeTies (js "abX") storeTies).
  - vm_compute. reflexivity.
  - vm_compute. lia.
  - intros c Hc _. apply list_elem_of_In in Hc. simpl in Hc.
    destruct Hc as [<-|[<-|[<-|[<-|[]]]]]; by vm_compute.
Defined.

(** "toString" is never counted and "total" has count 3: for "to" the search
    returns "toString", which stands first. *)
Lemma inherited_member_ties_with_any_count_witness :
  exists st',
    findBestMatch (H := demoRuntime) true 2 (js "to") storeToString
    = Normal (Some (js "toString"), st').
Proof.
  apply (inherited_member_ties_with_any_count (R := demoRuntime) 2 (js "to")
           storeToString (js "toString") (js "total")).
  - vm_compute. lia.
  - reflexivity.
  - discriminate.
  - left. reflexivity.
Defined.

(** X14. Pruning is idempotent, and it bounds the map: the result has
    [min (size counts) 100] entries. *)
Theorem cleanupCounts_idempotent (counts : gmap jsstring Z) :
  cleanupCounts (cleanupCounts counts) = cleanupCounts counts /\
  size (cleanupCounts counts) = (size counts `min` 100)%nat.
Proof.
  assert (size (cleanupCounts counts) = (size counts `min` 100)%nat) as Hsize.
  { destruct (Nat.le_gt_cases (size counts) MAX_COUNT_RECORDS) as [Hs|Hl].
    - rewrite cleanupCounts_small by done. unfold MAX_COUNT_RECORDS in Hs. lia.
    - rewrite cleanupCounts_large by done.
      rewrite map_size_list_to_map by apply keptEntries_NoDup.
      unfold keptEntries, Object_entries.
      rewrite length_take, sort_length, length_map_to_list.
      unfold MAX_COUNT_RECORDS in *. lia. }
  split; [|done].
  apply cleanupCounts_small. rewrite Hsize. unfold MAX_COUNT_RECORDS. lia.
Qed.

(** ** The cleaned query *)

Lemma trimStart_suffix s : exists pre, s = pre ++ JsString.trimStart s.
Proof.
  induction s as [|c s [pre IH]]; simpl; [by exists []|].
  destruct (JsString.isWhiteSpace c); [|by exists []].
  exists (c :: pre). simpl. by rewrite <- IH.
Qed.

Lemma trimStart_head s c r :
  JsString.trimStart s = c :: r -> JsString.isWhiteSpace c = false.
Proof.
  induction s as [|d s IH]; simpl; [done|].
  destruct (JsString.isWhiteSpace d) eqn:Hd; [done|].
  by intros [= <- _].
Qed.

Lemma trimStart_fixed s :
  (forall c r, s = c :: r -> JsString.isWhiteSpace c = false) ->
  JsString.trimStart s = s.
Proof.
  destruct s as [|c r]; simpl; [done|].
  intros H. by rewrite (H c r eq_refl).
Qed.

Lemma trimEnd_prefix s : exists post, s = JsString.trimEnd s ++ post.
Proof.
  unfold JsString.trimEnd.
  destruct (trimStart_suffix (reverse s)) as [pre Hpre].
  exists (reverse pre).
  rewrite <- reverse_app, <- Hpre. by rewrite reverse_involutive.
Qed.

Lemma trimEnd_last s c r :
  JsString.trimEnd s = r ++ [c] -> JsString.isWhiteSpace c = false.
Proof.
  unfold JsString.trimEnd. intros H.
  apply (f_equal reverse) in H.
  rewrite reverse_involutive, reverse_snoc in H.
  by eapply trimStart_head.
Qed.

Lemma trimEnd_fixed s :
  (forall c r, s = r ++ [c] -> JsString.isWhiteSpace c = false) ->
  JsString.trimEnd s = s.
Proof.
  intros H. unfold JsString.trimEnd.
  rewrite trimStart_fixed; [by rewrite reverse_involutive|].
  intros c r Hrev. apply (H c (reverse r)).
  apply (f_equal reverse) in Hrev.
  by rewrite reverse_involutive, reverse_cons in Hrev.
Qed.

Lemma trim_head s c r :
  JsString.trim s = c :: r -> JsString.isWhiteSpace c = false.
Proof.
  unfold JsString.trim. intros H.
  destruct (trimEnd_prefix (JsString.trimStart s)) as [post Hpost].
  rewrite H in Hpost. by eapply trimStart_head.
Qed.

Lemma trim_elem_of s c : c ∈ JsString.trim s -> c ∈ s.
Proof.
  unfold JsString.trim. intros Hc.
  destruct (trimEnd_prefix (JsString.trimStart s)) as [post Hpost].
  destruct (trimStart_suffix s) as [pre Hpre].
  rewrite Hpre, Hpost. apply elem_of_app. right. apply elem_of_app. by left.
Qed.

(** X15. The cleaned query only has code units of the typed text, none of
    them zero-width (U+200B to U+200D, U+FEFF); it neither begins nor ends
    with white space; and cleaning it again changes nothing. *)
Theorem cleanText_canonical (text : jsstring) :
  (forall c, c ∈ cleanText text ->
     c ∈ text /\ ~ (8203 <= c <= 8205)%N /\ c <> 65279%N) /\
  (forall c s, cleanText text = c :: s -> JsString.isWhiteSpace c = false) /\
  (forall c s, cleanText text = s ++ [c] -> JsString.isWhiteSpace c = false) /\
  cleanText (cleanText text) = cleanText text.
Proof.
  assert (forall c, c ∈ cleanText text ->
            c ∈ text /\ ~ (8203 <= c <= 8205)%N /\ c <> 65279%N) as Hmem.
  { intros c Hc%trim_elem_of. unfold stripZeroWidth in Hc.
    apply list_elem_of_In, filter_In in Hc as [Hin Hkeep].
    split; [by apply list_elem_of_In|].
    apply negb_true_iff, orb_false_elim in Hkeep as [Hrange Hbom].
    apply N.eqb_neq in Hbom. split; [|done].
    intros [Hlo Hhi]. apply N.leb_le in Hlo, Hhi.
    by rewrite Hlo, Hhi in Hrange. }
  assert (forall c s, cleanText text = c :: s -> JsString.isWhiteSpace c = false)
    as Hhead by (intros c s; apply trim_head).
  assert (forall c s, cleanText text = s ++ [c] -> JsString.isWhiteSpace c = false)
    as Hlast by (intros c s; apply trimEnd_last).
  repeat split; try done; try (by apply Hmem).
  unfold cleanText at 1.
  assert (stripZeroWidth (cleanText text) = cleanText text) as ->.
  { unfold stripZeroWidth. apply forallb_filter_id, forallb_forall.
    intros c Hc%list_elem_of_In%Hmem. destruct Hc as (_ & Hrange & Hbom).
    apply negb_true_iff, orb_false_intro; [|by apply N.eqb_neq].
    destruct (N.leb_spec 8203 c), (N.leb_spec c 8205); try done.
    destruct Hrange. lia. }
  unfold JsString.trim.
  rewrite (trimStart_fixed _ Hhead). by apply trimEnd_fixed.
Qed.

(** ** The config display, continued *)

Section ConfigMore.
Import ConfigInfoDisplay.

(** X16. The masked preview of a non-empty key is as long as the key when
    the key has at most 10 code units and 20 code units long otherwise:
    beyond 10 the preview does not tell how long the key is. *)
Theorem masked_preview_length (apiKey : jsstring) :
  apiKey <> [] ->
  length (getApiKeyPreview apiKey false) =
    if (length apiKey <=? 10)%nat then length apiKey else 20%nat.
Proof.
  intros Hne. destruct (Nat.leb_spec (length apiKey) 10) as [Hle|Hgt].
  - unfold getApiKeyPreview. destruct apiKey as [|c k]; [done|].
    cbn [JsString.truthy negb].
    destruct (Nat.leb_spec (length (c :: k)) 10); [|lia].
    by rewrite repeat_bullet, length_replicate.
  - rewrite getApiKeyPreview_long by done.
    rewrite !length_app, length_take, length_replicate, length_drop. lia.
Qed.

Lemma masked_preview_length_witness :
  length (getApiKeyPreview (js "sk-ant-AAAA1234") false) =
    if (length (js "sk-ant-AAAA1234") <=? 10)%nat
    then length (js "sk-ant-AAAA1234") else 20%nat.
Proof. apply (masked_preview_length (js "sk-ant-AAAA1234")). by vm_compute. Defined.

(** X17. A key of 11 or 12 code units is not masked at all: its first 8
    and last 4 code units cover it, and the key can be read off the
    preview. *)
Theorem short_key_is_fully_shown (apiKey : jsstring) :
  (10 < length apiKey <= 12)%nat ->
  apiKey = take 8 (getApiKeyPreview apiKey false)
           ++ drop (28 - length apiKey) (getApiKeyPreview apiKey false).
Proof.
  intros [Hlo Hhi]. rewrite getApiKeyPreview_long by done.
  do 11 (destruct apiKey as [|? apiKey]; [simpl in Hlo; lia|]).
  destruct apiKey as [|? apiKey]; [reflexivity|].
  destruct apiKey as [|? apiKey]; [reflexivity|simpl in Hhi; lia].
Qed.

Lemma short_key_is_fully_shown_witness :
  js "sk-ant-1234" = take 8 (getApiKeyPreview (js "sk-ant-1234") false)
                     ++ drop (28 - length (js "sk-ant-1234"))
                          (getApiKeyPreview (js "sk-ant-1234") false).
Proof. apply (short_key_is_fully_shown (js "sk-ant-1234")). simpl. lia. Defined.

(** X18. The switch menu never offers a provider that is active, it offers
    every provider that is not, and the provider shown as active is the
    first active one; no provider is shown as active exactly when the menu
    offers them all. *)
Theorem switch_menu_excludes_active (providers : list ProviderOption) :
  (forall p, p ∈ switchableProviders providers <-> p ∈ providers /\ active p = false) /\
  (forall p, activeProvider providers = Some p ->
     active p = true /\ (p ∉ switchableProviders providers) /\
     exists before after,
       providers = before ++ p :: after /\ switchableProviders before = before) /\
  (activeProvider providers = None <-> switchableProviders providers = providers).
Proof.
  assert (forall l : list ProviderOption,
            switchableProviders l = l <-> forall p, p ∈ l -> active p = false) as Hall.
  { induction l as [|q l IH]; simpl.
    - split; [by intros _ p ?%elem_of_nil|done].
    - destruct (active q) eqn:Hq; simpl.
      + split.
        * intros Heq. apply (f_equal length) in Heq.
          pose proof (filter_length_le (fun p => negb (active p)) l) as Hle.
          unfold switchableProviders in Heq. simpl in Heq. lia.
        * intros H. specialize (H q ltac:(left)). congruence.
      + split.
        * intros [= Heq] p [->|Hp]%elem_of_cons; [done|]. by apply IH.
        * intros H. f_equal. apply IH. intros p Hp. apply H. by right. }
  split; [|split].
  - intros p. unfold switchableProviders.
    rewrite !list_elem_of_In, filter_In, negb_true_iff. done.
  - intros p Hfind. unfold activeProvider in Hfind.
    pose proof (find_some _ _ Hfind) as [_ Hact].
    split; [done|]. split.
    { unfold switchableProviders.
      rewrite list_elem_of_In, filter_In, Hact. by intros [_ ?]. }
    induction providers as [|q l IH]; simpl in Hfind; [done|].
    destruct (active q) eqn:Hq.
    + injection Hfind as ->. by exists [], l.
    + destruct (IH Hfind) as (before & after & -> & Hbefore).
      exists (q :: before), after. split; [done|].
      simpl. rewrite Hq. simpl. by f_equal.
  - rewrite Hall. unfold activeProvider. split.
    + intros Hnone p Hp. apply list_elem_of_In in Hp.
      pose proof (find_none _ _ Hnone p Hp). done.
    + intros H. destruct (List.find active providers) as [p|] eqn:Hfind; [|done].
      apply find_some in Hfind as [Hin Hact].
      apply list_elem_of_In in Hin. rewrite (H p Hin) in Hact. done.
Qed.

End ConfigMore.

(** ** [WaitingIndicator] *)

Section WaitingMore.
Import WaitingIndicator.

Example formatTimeShort_examples :
  formatTimeShort 0 = js "0s" /\ formatTimeShort 59 = js "59s" /\
  formatTimeShort 60 = js "1m 0s" /\ formatTimeShort 3725 = js "62m 5s" /\
  formatTimeShort (-5) = js "-5s".
Proof. repeat split; reflexivity. Qed.

Lemma js_cons a s : js (String a s) = Ascii.N_of_ascii a :: js s.
Proof. done. Qed.

Lemma js_inj s1 s2 : js s1 = js s2 -> s1 = s2.
Proof.
  revert s2. induction s1 as [|a s1 IH]; intros [|b s2]; try done.
  rewrite !js_cons. intros [= Hab Hs].
  f_equal; [|by apply IH].
  by rewrite <- (Ascii.ascii_N_embedding a), Hab, Ascii.ascii_N_embedding.
Qed.

Lemma uint_digits d c :
  c ∈ js (DecimalString.NilEmpty.string_of_uint d) -> (48 <= c <= 57)%N.
Proof.
  induction d; simpl; try (by intros ?%elem_of_nil);
    rewrite js_cons; intros [->|Hc]%elem_of_cons; try (by apply IHd);
    simpl; lia.
Qed.

(** The code units of a printed integer: digits, and a minus sign. *)
Lemma numberToString_chars n c :
  c ∈ numberToString n -> c = 45%N \/ (48 <= c <= 57)%N.
Proof.
  unfold numberToString. destruct (Z.to_int n) as [d|d]; simpl.
  - right. by eapply uint_digits.
  - rewrite js_cons. intros [->|Hc]%elem_of_cons; [by left|].
    right. by eapply uint_digits.
Qed.

Lemma numberToString_inj n1 n2 : numberToString n1 = numberToString n2 -> n1 = n2.
Proof.
  intros H%js_inj. apply DecimalZ.to_int_inj.
  assert (Some (Z.to_int n1) = Some (Z.to_int n2)) as [= ->]; [|done].
  by rewrite <- !DecimalString.NilEmpty.isi, H.
Qed.

Lemma split_at_separator {A} (x : A) (a a' b b' : list A) :
  a ++ x :: b = a' ++ x :: b' -> x ∉ a -> x ∉ a' -> a = a' /\ b = b'.
Proof.
  revert a'. induction a as [|y a IH]; intros [|y' a']; simpl.
  - by intros [= ->].
  - intros [= <- _] _ Hx. destruct Hx. left.
  - intros [= -> _] Hx. destruct Hx. left.
  - intros [= -> Heq] [_ Hx]%not_elem_of_cons [_ Hx']%not_elem_of_cons.
    destruct (IH a' Heq Hx Hx') as [-> ->]. done.
Qed.

Lemma letter_m_not_printed n : 109%N ∉ numberToString n.
Proof. intros [?|?]%numberToString_chars; lia. Qed.

(** X19. Distinct elapsed times are never shown alike. *)
Theorem formatTimeShort_distinguishes (s1 s2 : Z) :
  - 2 ^ 31 < s1 < 2 ^ 31 -> - 2 ^ 31 < s2 < 2 ^ 31 ->
  s1 <> s2 -> formatTimeShort s1 <> formatTimeShort s2.
Proof.
  intros _ _ Hne Heq. apply Hne. revert Heq.
  unfold formatTimeShort.
  change (js "s") with [115%N]. change (js "m ") with [109%N; 32%N].
  destruct (Z.ltb_spec s1 60) as [H1|H1], (Z.ltb_spec s2 60) as [H2|H2].
  - intros H%app_inv_tail. by apply numberToString_inj.
  - intros H. exfalso.
    assert (109%N ∈ numberToString s1 ++ [115%N]) as Hin.
    { rewrite H. apply elem_of_app. right. left. }
    apply elem_of_app in Hin as [Hin|Hin]; [by apply letter_m_not_printed in Hin|].
    apply list_elem_of_singleton in Hin. done.
  - intros H. exfalso.
    assert (109%N ∈ numberToString s2 ++ [115%N]) as Hin.
    { rewrite <- H. apply elem_of_app. right. left. }
    apply elem_of_app in Hin as [Hin|Hin]; [by apply letter_m_not_printed in Hin|].
    apply list_elem_of_singleton in Hin. done.
  - simpl. intros H.
    apply split_at_separator in H as [Hm Hr];
      [|apply letter_m_not_printed|apply letter_m_not_printed].
    injection Hr as Hr. apply app_inv_tail in Hr.
    apply numberToString_inj in Hm, Hr.
    rewrite (Z.div_mod s1 60), (Z.div_mod s2 60) by lia.
    rewrite <- !Z.rem_mod_nonneg by lia. congruence.
Qed.

(** 59 seconds and one minute. *)
Lemma formatTimeShort_distinguishes_witness :
  formatTimeShort 59 <> formatTimeShort 60.
Proof. apply (formatTimeShort_distinguishes 59 60); lia. Defined.

(** X20. From one minute on the text is "<m>m <r>s" with a whole number of
    minutes [m >= 1] and [0 <= r < 60] seconds that add up to the time
    shown; below one minute it is "<seconds>s". *)
Theorem formatTimeShort_minutes_and_seconds (seconds : Z) :
  - 2 ^ 31 < seconds < 2 ^ 31 ->
  (seconds < 60 -> formatTimeShort seconds = numberToString seconds ++ js "s") /\
  (60 <= seconds ->
     exists m r,
       formatTimeShort seconds =
         numberToString m ++ js "m " ++ numberToString r ++ js "s" /\
       1 <= m /\ 0 <= r < 60 /\ seconds = 60 * m + r).
Proof.
  intros _. unfold formatTimeShort. split; intros H.
  - by destruct (Z.ltb_spec seconds 60); [|lia].
  - destruct (Z.ltb_spec seconds 60); [lia|].
    exists (seconds / 60), (Z.rem seconds 60). split; [done|].
    rewrite Z.rem_mod_nonneg by lia.
    pose proof (Z.mod_pos_bound seconds 60 ltac:(lia)).
    pose proof (Z.div_mod seconds 60 ltac:(lia)).
    assert (1 <= seconds / 60) by (apply Z.div_le_lower_bound; lia).
    lia.
Qed.

(** One hour, two minutes and five seconds. *)
Lemma formatTimeShort_minutes_and_seconds_witness :
  exists m r,
    formatTimeShort 3725 =
      numberToString m ++ js "m " ++ numberToString r ++ js "s" /\
    1 <= m /\ 0 <= r < 60 /\ 3725 = 60 * m + r.
Proof.
  apply (proj2 (formatTimeShort_minutes_and_seconds 3725 ltac:(lia))). lia.
Defined.

(** X21. With a start time the elapsed seconds follow the clock: after
    any ticks they are the whole seconds between the start time and the
    last tick, whatever was shown before, which is also what a remount at
    that moment starts from.  Without a start time (absent, or 0) every
    tick adds one. *)
Theorem elapsed_follows_clock (startTime : option Z) (nows : list Z) (prev : Z) :
  (forall t now, startTime = Some t -> t <> 0 -> last nows = Some now ->
     ticksElapsed startTime nows prev = initialElapsed startTime now /\
     1000 * ticksElapsed startTime nows prev <= now - t
       < 1000 * ticksElapsed startTime nows prev + 1000) /\
  (hasStartTime startTime = false ->
     ticksElapsed startTime nows prev = prev + Z.of_nat (length nows)).
Proof.
  split.
  - intros t now -> Ht [l ->]%last_Some.
    unfold ticksElapsed. rewrite foldl_snoc. simpl.
    destruct (Z.eqb_spec t 0); [done|]. simpl. split; [done|].
    pose proof (Z.div_mod (now - t) 1000 ltac:(lia)).
    pose proof (Z.mod_pos_bound (now - t) 1000 ltac:(lia)). lia.
  - intros Hnone. unfold ticksElapsed.
    revert prev. induction nows as [|now nows IH]; intros prev; simpl; [lia|].
    rewrite IH.
    assert (tickElapsed startTime now prev = prev + 1) as ->; [|lia].
    unfold tickElapsed. destruct startTime as [t|]; [|done].
    simpl in Hnone. by rewrite Hnone.
Qed.

Lemma pickIndex_accepts draws last len :
  (1 < len)%nat ->
  (exists d, d ∈ draws /\ Z.of_nat d <> last) ->
  exists i rest, pickIndex draws last len = Some (i, rest) /\
                 i ∈ draws /\ Z.of_nat i <> last.
Proof.
  intros Hlen. induction draws as [|d draws IH]; intros (x & Hx & Hne).
  - by apply elem_of_nil in Hx.
  - simpl. destruct (Z.eqb_spec (Z.of_nat d) last) as [Heq|Hneq]; simpl.
    + destruct (Nat.ltb_spec 1 len); [|lia].
      apply elem_of_cons in Hx as [->|Hx]; [done|].
      destruct IH as (i & rest & -> & Hi & Hi'); [by exists x|].
      exists i, rest. split; [done|]. split; [by right|done].
    + exists d, draws. split; [done|]. split; [left|done].
Qed.

(** X22. With more than one message, [getRandomMessage] never returns the
    message index it returned last: as soon as a draw differs from the last
    index the loop ends, the message at the drawn index is returned and the
    index is remembered. *)
Theorem getRandomMessage_never_repeats (translated : list jsstring)
    (draws : list nat) (pk : Picker) (msgs : list jsstring) :
  msgs = (if (length (messages pk) =? 0)%nat then translated else messages pk) ->
  (1 < length msgs)%nat ->
  Forall (fun d => (d < length msgs)%nat) draws ->
  (exists d, d ∈ draws /\ Z.of_nat d <> lastIndex pk) ->
  exists i msg rest,
    getRandomMessage translated draws pk =
      Some (Some msg, {| messages := msgs; lastIndex := Z.of_nat i |}, rest) /\
    Z.of_nat i <> lastIndex pk /\ msgs !! i = Some msg.
Proof.
  intros Hmsgs Hlen Hdraws Hdiff.
  destruct (pickIndex_accepts draws (lastIndex pk) (length msgs) Hlen Hdiff)
    as (i & rest & Hpick & Hi & Hne).
  rewrite Forall_forall in Hdraws.
  destruct (lookup_lt_is_Some_2 msgs i (Hdraws i Hi)) as [msg Hmsg].
  exists i, msg, rest. split; [|done].
  unfold getRandomMessage. rewrite <- Hmsgs, Hpick. by rewrite Hmsg.
Qed.

(** Three messages, the last index 1, and the draws 1, 1, 2: the third
    draw is taken. *)
Lemma getRandomMessage_never_repeats_witness :
  exists i msg rest,
    getRandomMessage [js "Thinking"; js "Working"; js "Almost"] [1; 1; 2]%nat
      {| messages := []; lastIndex := 1 |} =
      Some (Some msg,
            {| messages := [js "Thinking"; js "Working"; js "Almost"];
               lastIndex := Z.of_nat i |}, rest) /\
    Z.of_nat i <> 1 /\
    [js "Thinking"; js "Working"; js "Almost"] !! i = Some msg.
Proof.
  apply (getRandomMessage_never_repeats
           [js "Thinking"; js "Working"; js "Almost"] [1; 1; 2]%nat
           {| messages := []; lastIndex := 1 |}
           [js "Thinking"; js "Working"; js "Almost"]).
  - reflexivity.
  - simpl. lia.
  - repeat constructor; simpl; lia.
  - exists 2%nat. split; [|simpl; lia]. do 2 right. left.
Defined.

Lemma typewriterStep_consistent next tw :
  typewriterConsistent tw -> typewriterConsistent (typewriterStep next tw).2.
Proof.
  intros (Htext & Hidx & Hphase).
  unfold typewriterStep, typewriterEffect.
  destruct (phase tw) eqn:Hp.
  - destruct (Nat.ltb_spec (charIndex tw) (length (currentMessage tw))) as [Hlt|Hge];
      simpl.
    + unfold typewriterConsistent. simpl. rewrite Hp.
      replace (Z.of_nat (charIndex tw) + 1) with (Z.of_nat (charIndex tw + 1)) by lia.
      rewrite slice_first by lia. split; [done|]. split; [lia|done].
    + unfold typewriterConsistent. simpl. split; [done|]. split; [done|].
      split; [done|]. rewrite Htext. apply take_ge. lia.
  - simpl. unfold typewriterConsistent. simpl. done.
  - simpl. unfold typewriterConsistent. simpl. split; [done|]. split; [lia|done].
Qed.

(** X23. However long the typewriter runs, the text shown is the part of
    the current message typed so far, the cursor is shown exactly while
    typing, and once it is hidden the whole message is shown. *)
Theorem typewriter_shows_a_prefix (message : jsstring) (nexts : list jsstring) :
  typewriterConsistent (typewriterRun nexts (startTyping message)).2.
Proof.
  assert (typewriterConsistent (startTyping message)) as Hinit.
  { unfold typewriterConsistent. simpl. split; [done|]. split; [lia|done]. }
  revert Hinit. generalize (startTyping message) as tw.
  induction nexts as [|next nexts IH]; intros tw Htw; simpl; [done|].
  pose proof (typewriterStep_consistent next tw Htw) as Hstep.
  destruct (typewriterStep next tw) as [d tw'].
  specialize (IH tw' Hstep).
  by destruct (typewriterRun nexts tw') as [d' tw''].
Qed.

Lemma typewriter_types k : forall nexts message i,
  length nexts = k -> (i + k <= length message)%nat ->
  typewriterRun nexts
    {| currentMessage := message; displayText := take i message;
       charIndex := i; showCursor := true; phase := typing |}
  = (50 * Z.of_nat k,
     {| currentMessage := message; displayText := take (i + k) message;
        charIndex := i + k; showCursor := true; phase := typing |}).
Proof.
  induction k as [|k IH]; intros nexts message i Hlen Hle.
  - destruct nexts; [|done]. simpl. by rewrite Nat.add_0_r.
  - destruct nexts as [|next nexts]; [done|]. injection Hlen as Hlen.
    cbn [typewriterRun]. unfold typewriterStep, typewriterEffect. simpl.
    destruct (Nat.ltb_spec i (length message)); [|lia].
    simpl.
    replace (Z.of_nat i + 1) with (Z.of_nat (i + 1)) by lia.
    rewrite slice_first by lia.
    rewrite (IH nexts message (i + 1)%nat Hlen) by lia.
    f_equal; [lia|]. by replace (i + 1 + k)%nat with (i + S k)%nat by lia.
Qed.

(** X24. A message takes [50 * length + 2700] ms: typed at 50 ms a code
    unit, held 200 ms with the cursor hidden, shown 2500 ms more; the round
    after that starts the next message from the empty text. *)
Theorem typewriter_message_cycle (message next : jsstring) (nexts : list jsstring) :
  length nexts = (length message + 2)%nat ->
  typewriterRun (nexts ++ [next]) (startTyping message)
  = (50 * Z.of_nat (length message) + 2700, startTyping next).
Proof.
  intros Hlen.
  assert (exists typed held shown,
            nexts = typed ++ [held; shown] /\ length typed = length message)
    as (typed & held & shown & -> & Htyped).
  { exists (take (length message) nexts).
    destruct (drop (length message) nexts) as [|held [|shown [|? ?]]] eqn:Hdrop;
      apply (f_equal length) in Hdrop as Hl; rewrite length_drop in Hl;
      simpl in Hl; try lia.
    exists held, shown. rewrite <- Hdrop, take_drop.
    split; [done|]. rewrite length_take. lia. }
  rewrite <- app_assoc. simpl.
  assert (forall l1 l2 tw,
            typewriterRun (l1 ++ l2) tw =
              ((typewriterRun l1 tw).1 + (typewriterRun l2 (typewriterRun l1 tw).2).1,
               (typewriterRun l2 (typewriterRun l1 tw).2).2)) as Happ.
  { induction l1 as [|x l1 IH]; intros l2 tw; simpl.
    - by destruct (typewriterRun l2 tw).
    - destruct (typewriterStep x tw) as [d tw']. rewrite IH.
      destruct (typewriterRun l1 tw') as [d1 tw1]. simpl.
      destruct (typewriterRun l2 tw1) as [d2 tw2]. simpl. f_equal. lia. }
  pose proof (typewriter_types (length message) typed message 0%nat Htyped
                ltac:(lia)) as Hrun.
  change (take 0 message) with (@nil N) in Hrun.
  fold (startTyping message) in Hrun.
  rewrite Happ, Hrun.
  simpl. unfold typewriterStep, typewriterEffect. simpl.
  rewrite Nat.ltb_irrefl. simpl.
  done.
Qed.

Lemma typewriter_message_cycle_witness :
  typewriterRun ([js "a"; js "b"; js "c"; js "d"] ++ [js "Thinking"]) (startTyping (js "Hi"))
  = (50 * Z.of_nat (length (js "Hi")) + 2700, startTyping (js "Thinking")).
Proof.
  apply (typewriter_message_cycle (js "Hi") (js "Thinking")
           [js "a"; js "b"; js "c"; js "d"]).
  reflexivity.
Defined.

End WaitingMore.
